(** * docker-container-utils: image reference parser and retag pipeline

    A shallow embedding of

    - [docker_container.py]: the [DockerContainer] class, which splits an
      image reference such as [registry.example.com/my-org/app:v2.0] into
      hostname, path, name and tag, and renders it back ([full_name]);
    - [retag_and_push_from_dir.py]: the three worker loops
      [load_docker_image], [tag_docker_image], [push_docker_image] and the
      driver [process_images] that connects them with [queue.Queue]s and
      shuts them down with a [None] poison pill.

    Python [str] values are modelled as [string] (characters as [ascii]),
    Python lists and tuples as [list], exceptions as an explicit result
    type, and the threads of the pipeline as an interleaving step function
    over a state holding the three queues.

    A step of a worker is one whole iteration of its [while True] loop.
    The threads share nothing but the queues, and every queue has a single
    producer and a single consumer, so cutting an iteration into smaller
    steps would not change what the queues can hold.  The outcome of each
    [docker] command is chosen by the environment at every step. *)

From Stdlib Require Import String Ascii List ZArith Bool Lia Arith.
Import ListNotations.
Local Open Scope string_scope.
Local Open Scope list_scope.

(* ================================================================= *)
(** ** Python primitives used by the source *)

(** The exceptions that the modelled code can raise.  [ParsingError] is the
    class declared at the top of [docker_container.py]; it derives from
    [Exception], not from [ValueError] or [subprocess.CalledProcessError]. *)
Inductive exn : Type :=
| ValueError (msg : string)
| ParsingError (msg : string)
| IndexError
| KeyError (key : string).

Inductive result (A : Type) : Type :=
| Ok (a : A)
| Raise (e : exn).

Arguments Ok {A} a.
Arguments Raise {A} e.

Definition bind {A B : Type} (m : result A) (k : A -> result B) : result B :=
  match m with
  | Ok a => k a
  | Raise e => Raise e
  end.

Notation "x <- m ;; k" := (bind m (fun x => k))
  (at level 61, m at next level, right associativity).
Notation "' p <- m ;; k" := (bind m (fun x => match x with p => k end))
  (at level 61, p pattern, m at next level, right associativity).

(** [try: body except ValueError as e: handler(str(e))]: only [ValueError]
    is intercepted, every other exception propagates. *)
Definition try_except_ValueError {A : Type}
    (body : result A) (handler : string -> result A) : result A :=
  match body with
  | Raise (ValueError msg) => handler msg
  | other => other
  end.

(** [s.split(sep)] for a one-character separator: the pieces between the
    occurrences of [sep], empty pieces included; never the empty list. *)
Fixpoint split (sep : ascii) (s : string) : list string :=
  match s with
  | EmptyString => [EmptyString]
  | String c rest =>
      if Ascii.eqb c sep then EmptyString :: split sep rest
      else match split sep rest with
           | [] => [String c EmptyString]
           | piece :: pieces => String c piece :: pieces
           end
  end.

(** [sep.join(pieces)]. *)
Fixpoint join (sep : string) (pieces : list string) : string :=
  match pieces with
  | [] => EmptyString
  | [x] => x
  | x :: rest => x ++ sep ++ join sep rest
  end.

(** [needle in hay] on strings: substring test. *)
Fixpoint str_in (needle hay : string) : bool :=
  if String.prefix needle hay then true
  else match hay with
       | EmptyString => false
       | String _ hay' => str_in needle hay'
       end.

(** Number of occurrences of a character (used in statements only). *)
Fixpoint count_char (c : ascii) (s : string) : nat :=
  match s with
  | EmptyString => 0
  | String d rest => (if Ascii.eqb d c then 1 else 0) + count_char c rest
  end.

(** Python index normalisation for slices: negative bounds count from the
    end, and every bound is clamped into [0 .. len]. *)
Definition slice_bound (len : nat) (i : Z) : nat :=
  if (i <? 0)%Z then Z.to_nat (Z.max 0 (Z.of_nat len + i))
  else Nat.min len (Z.to_nat i).

(** [l[lo:hi]] with optional bounds. *)
Definition slice {A : Type} (lo hi : option Z) (l : list A) : list A :=
  let n := length l in
  let a := match lo with None => 0 | Some i => slice_bound n i end in
  let b := match hi with None => n | Some j => slice_bound n j end in
  firstn (b - a) (skipn a l).

(** [l[i]]: negative indices count from the end; out of range raises
    [IndexError]. *)
Definition getitem {A : Type} (l : list A) (i : Z) : result A :=
  let n := Z.of_nat (length l) in
  let j := if (i <? 0)%Z then (i + n)%Z else i in
  if ((0 <=? j) && (j <? n))%Z then
    match nth_error l (Z.to_nat j) with
    | Some x => Ok x
    | None => Raise IndexError
    end
  else Raise IndexError.

(** A [Dict[str, str]] built by a literal: keys in insertion order. *)
Definition dict : Type := list (string * string).

Fixpoint dict_get (d : dict) (key : string) : result string :=
  match d with
  | [] => Raise (KeyError key)
  | (k, v) :: d' => if String.eqb k key then Ok v else dict_get d' key
  end.

(** Truth value of a dict in [if self.info:]: non-empty. *)
Definition dict_truthy (d : dict) : bool :=
  match d with
  | [] => false
  | _ :: _ => true
  end.

(** Unpacking [a, b = t]; a length mismatch is a [ValueError] in Python. *)
Definition unpack2 (t : list string) : result (string * string) :=
  match t with
  | [a; b] => Ok (a, b)
  | [] => Raise (ValueError "not enough values to unpack (expected 2, got 0)")
  | [_] => Raise (ValueError "not enough values to unpack (expected 2, got 1)")
  | _ => Raise (ValueError "too many values to unpack (expected 2)")
  end.

(* ================================================================= *)
(** ** docker_container.py *)

Definition DEFAULT_HOSTNAME : string := "docker.io".

(** [DockerContainer._parse_hostname_and_path]. *)
Definition _parse_hostname_and_path (components : list string)
  : result (string * string) :=
  c0 <- getitem components 0 ;;
  if str_in "." c0 then
    Ok (c0, join "/" (slice (Some 1%Z) (Some (-1)%Z) components))
  else
    Ok (DEFAULT_HOSTNAME, join "/" (slice None (Some (-1)%Z) components)).

(** [DockerContainer._parse_name_and_tag]; the returned tuple is a list. *)
Definition _parse_name_and_tag (container_name_with_tag : string)
  : result (list string) :=
  let name_array := split ":" container_name_with_tag in
  if negb (Nat.eqb (length name_array) 2) then
    Raise (ValueError "Invalid docker image path")
  else Ok name_array.

(** [DockerContainer.extract_container_info], as a function of
    [self.raw_container_name_string]. *)
Definition extract_container_info (raw_container_name_string : string)
  : result dict :=
  try_except_ValueError
    (let components := split "/" raw_container_name_string in
     '(hostname, path) <- _parse_hostname_and_path components ;;
     last_component <- getitem components (-1) ;;
     name_and_tag <- _parse_name_and_tag last_component ;;
     '(container_name, tag) <- unpack2 name_and_tag ;;
     Ok [("hostname", hostname);
         ("path", path);
         ("container_name", container_name);
         ("tag", tag)])
    (fun e => Raise (ParsingError ("Failed to parse container info: " ++ e))).

(** The attributes that [__init__] sets on a [DockerContainer]. *)
Record DockerContainer : Type := mkDockerContainer {
  raw_container_name_string : string;
  info : dict;
  hostname : string;
  path : string;
  container_name : string;
  tag : string
}.

(** [DockerContainer.__init__] with [enable_client=False] (its default, and
    the only way the pipeline and the tests call it): the SDK base class is
    not initialised. *)
Definition DockerContainer_init (raw : string) : result DockerContainer :=
  info <- extract_container_info raw ;;
  if dict_truthy info then
    hostname <- dict_get info "hostname" ;;
    path <- dict_get info "path" ;;
    container_name <- dict_get info "container_name" ;;
    tag <- dict_get info "tag" ;;
    Ok (mkDockerContainer raw info hostname path container_name tag)
  else Raise (ValueError "Invalid docker image path").

(** The [full_name] property. *)
Definition full_name (self : DockerContainer) : string :=
  if String.eqb (path self) "" then
    hostname self ++ "/" ++ container_name self ++ ":" ++ tag self
  else
    hostname self ++ "/" ++ path self ++ "/" ++ container_name self
      ++ ":" ++ tag self.

(** The constant message of every [ParsingError] the parser raises. *)
Definition parse_error_message : string :=
  "Failed to parse container info: Invalid docker image path".

(** Hostname and path as [_parse_hostname_and_path] picks them. *)
Definition hostname_of (components : list string) : string :=
  let c0 := hd EmptyString components in
  if str_in "." c0 then c0 else DEFAULT_HOSTNAME.

Definition path_of (components : list string) : string :=
  let c0 := hd EmptyString components in
  if str_in "." c0 then join "/" (removelast (tl components))
  else join "/" (removelast components).

(** The four parsed components of a reference, for comparing two parses. *)
Definition components_of (c : DockerContainer)
  : string * string * string * string :=
  (hostname c, path c, container_name c, tag c).

(** The parse-render round trip: [DockerContainer(c.full_name)]. *)
Definition reparse (c : DockerContainer) : result DockerContainer :=
  DockerContainer_init (full_name c).

(* ================================================================= *)
(** ** retag_and_push_from_dir.py *)

(** The four threads of a run: the caller of [process_images] and the three
    workers it starts. *)
Inductive actor : Type := Driver | Load | Tag | Push.

(** A worker thread is inside its [while True] loop, has left it through
    [break], or has died from an exception that no [except] clause of its
    loop intercepts. *)
Inductive worker_status : Type :=
| Running
| Finished
| Crashed (e : exn).

(** Where the driver stands inside [process_images], after the three
    [thread.start()] calls: in the [for image in images] loop with the
    images still to be put (the sentinel is put when none is left), in one
    of the three [thread.join()] calls, or returned. *)
Inductive driver_pc : Type :=
| Putting (remaining : list string)
| JoiningLoad
| JoiningTag
| JoiningPush
| Returned.

(** What a run does to the outside world: the [docker] commands it
    launches, with [ok = false] when [subprocess.run(..., check=True)]
    raises [CalledProcessError], and the exceptions that kill a thread. *)
Inductive event : Type :=
| DockerLoad (image_path : string) (ok : bool)
| DockerTag (image_details new_image_tag : string) (ok : bool)
| DockerPush (image_tag : string) (ok : bool)
| Uncaught (who : actor) (e : exn).

(** The shared state: the three [queue.Queue]s (head of the list is the
    next item [get()] returns, [None] is the poison pill), the threads, and
    the events so far, oldest first. *)
Record state : Type := mkState {
  driver : driver_pc;
  image_queue : list (option string);
  tag_queue : list (option (string * string));
  push_queue : list (option string);
  load_worker : worker_status;
  tag_worker : worker_status;
  push_worker : worker_status;
  trace : list event
}.

(** [thread.join()] returns once the thread is no longer alive. *)
Definition terminated (w : worker_status) : bool :=
  match w with
  | Running => false
  | Finished | Crashed _ => true
  end.

Section RetagAndPush.

(** Imported by [retag_and_push_from_dir.py] from [docker_container] but
    not defined in the sources at hand: the image reference that
    [docker load] reported for an archive.  Kept abstract. *)
Variable extract_container_info_from_image_file : string -> string.

(** The arguments [new_tag] and [destination_path] of [process_images],
    handed unchanged to the tag worker. *)
Variable new_tag : string.
Variable destination_path : string.

(** The f-string of [tag_docker_image]:
    [f"{destination_path}/{imageObj.container_name}:{new_tag}"]. *)
Definition new_image_tag (imageObj : DockerContainer) : string :=
  destination_path ++ "/" ++ container_name imageObj ++ ":" ++ new_tag.

(** One iteration of the loop of [load_docker_image]; [ok] tells whether
    [docker load] exits with status 0.  [None]: the thread cannot move
    (blocked in [image_queue.get()], or not running). *)
Definition load_docker_image (ok : bool) (s : state) : option state :=
  match load_worker s, image_queue s with
  | Running, None :: q =>
      Some (mkState (driver s) q (tag_queue s ++ [None]) (push_queue s)
              Finished (tag_worker s) (push_worker s) (trace s))
  | Running, Some image_path :: q =>
      if ok then
        let image_details :=
          extract_container_info_from_image_file image_path in
        Some (mkState (driver s) q
                (tag_queue s ++ [Some (image_path, image_details)])
                (push_queue s)
                Running (tag_worker s) (push_worker s)
                (trace s ++ [DockerLoad image_path true]))
      else
        Some (mkState (driver s) q (tag_queue s) (push_queue s)
                Running (tag_worker s) (push_worker s)
                (trace s ++ [DockerLoad image_path false]))
  | _, _ => None
  end.

(** One iteration of the loop of [tag_docker_image]; [ok] tells whether
    [docker tag] exits with status 0.  The [except] clause names
    [subprocess.CalledProcessError] only, so an exception raised by
    [DockerContainer(image_details)] leaves the loop and ends the
    thread. *)
Definition tag_docker_image (ok : bool) (s : state) : option state :=
  match tag_worker s, tag_queue s with
  | Running, None :: q =>
      Some (mkState (driver s) (image_queue s) q (push_queue s ++ [None])
              (load_worker s) Finished (push_worker s) (trace s))
  | Running, Some (image_path, image_details) :: q =>
      match DockerContainer_init image_details with
      | Ok imageObj =>
          let new_image_tag := new_image_tag imageObj in
          if ok then
            Some (mkState (driver s) (image_queue s) q
                    (push_queue s ++ [Some new_image_tag])
                    (load_worker s) Running (push_worker s)
                    (trace s ++ [DockerTag image_details new_image_tag true]))
          else
            Some (mkState (driver s) (image_queue s) q (push_queue s)
                    (load_worker s) Running (push_worker s)
                    (trace s ++ [DockerTag image_details new_image_tag false]))
      | Raise e =>
          Some (mkState (driver s) (image_queue s) q (push_queue s)
                  (load_worker s) (Crashed e) (push_worker s)
                  (trace s ++ [Uncaught Tag e]))
      end
  | _, _ => None
  end.

(** One iteration of the loop of [push_docker_image]. *)
Definition push_docker_image (ok : bool) (s : state) : option state :=
  match push_worker s, push_queue s with
  | Running, None :: q =>
      Some (mkState (driver s) (image_queue s) (tag_queue s) q
              (load_worker s) (tag_worker s) Finished (trace s))
  | Running, Some image_tag :: q =>
      Some (mkState (driver s) (image_queue s) (tag_queue s) q
              (load_worker s) (tag_worker s) Running
              (trace s ++ [DockerPush image_tag ok]))
  | _, _ => None
  end.

(** The state right after [process_images] has started its three
    threads: every queue is empty, so every worker waits in [get()]. *)
Definition process_images_start (images : list string) : state :=
  mkState (Putting images) [] [] [] Running Running Running [].

(** One step of the caller inside [process_images]. *)
Definition process_images_step (s : state) : option state :=
  let goto pc :=
    mkState pc (image_queue s) (tag_queue s) (push_queue s)
      (load_worker s) (tag_worker s) (push_worker s) (trace s) in
  match driver s with
  | Putting (image :: rest) =>
      Some (mkState (Putting rest) (image_queue s ++ [Some image])
              (tag_queue s) (push_queue s)
              (load_worker s) (tag_worker s) (push_worker s) (trace s))
  | Putting [] =>
      Some (mkState JoiningLoad (image_queue s ++ [None])
              (tag_queue s) (push_queue s)
              (load_worker s) (tag_worker s) (push_worker s) (trace s))
  | JoiningLoad =>
      if terminated (load_worker s) then Some (goto JoiningTag) else None
  | JoiningTag =>
      if terminated (tag_worker s) then Some (goto JoiningPush) else None
  | JoiningPush =>
      if terminated (push_worker s) then Some (goto Returned) else None
  | Returned => None
  end.

(** The scheduler picks a thread; that thread makes its next move. *)
Definition step (a : actor) (ok : bool) (s : state) : option state :=
  match a with
  | Driver => process_images_step s
  | Load => load_docker_image ok s
  | Tag => tag_docker_image ok s
  | Push => push_docker_image ok s
  end.

(** A schedule, executed from a state. *)
Fixpoint run (schedule : list (actor * bool)) (s : state) : option state :=
  match schedule with
  | [] => Some s
  | (a, ok) :: schedule' =>
      match step a ok s with
      | Some s' => run schedule' s'
      | None => None
      end
  end.

(** Zero or more steps. *)
Inductive steps : state -> state -> Prop :=
| steps_refl : forall s, steps s s
| steps_next : forall s a ok s' s'',
    steps s s' -> step a ok s' = Some s'' -> steps s s''.

(** The states of the runs of [process_images images new_tag
    destination_path]. *)
Definition reachable (images : list string) (s : state) : Prop :=
  steps (process_images_start images) s.

(** No thread can move. *)
Definition stuck (s : state) : Prop :=
  forall a ok, step a ok s = None.

End RetagAndPush.

(** The image tags that arrived at the push stage (were dequeued by the
    push worker and handed to [docker push]), oldest first. *)
Fixpoint pushes (tr : list event) : list string :=
  match tr with
  | [] => []
  | DockerPush image_tag _ :: tr' => image_tag :: pushes tr'
  | _ :: tr' => pushes tr'
  end.

(** An event that is no failure. *)
Definition event_ok (ev : event) : bool :=
  match ev with
  | DockerLoad _ ok => ok
  | DockerTag _ _ ok => ok
  | DockerPush _ ok => ok
  | Uncaught _ _ => false
  end.

(** No load, tag or push action of the run has failed so far. *)
Definition failure_free (tr : list event) : bool := forallb event_ok tr.

(* ================================================================= *)
(** ** Vocabulary for the properties of a run *)

(** The work items of a queue, poison pills left out. *)
Fixpoint items {A : Type} (q : list (option A)) : list A :=
  match q with
  | [] => []
  | Some x :: q' => x :: items q'
  | None :: q' => items q'
  end.

(** A queue holds work items only, followed by one poison pill when
    [pill] is set. *)
Definition pill_last {A : Type} (pill : bool) (q : list (option A)) : Prop :=
  q = map Some (items q) ++ (if pill then [None] else []).

Definition is_running (w : worker_status) : bool :=
  match w with
  | Running => true
  | _ => false
  end.

Definition is_finished (w : worker_status) : bool :=
  match w with
  | Finished => true
  | _ => false
  end.

Definition putting (pc : driver_pc) : bool :=
  match pc with
  | Putting _ => true
  | _ => false
  end.

(** The images the driver has not put on [image_queue] yet. *)
Definition remaining (pc : driver_pc) : list string :=
  match pc with
  | Putting images => images
  | _ => []
  end.

(** What the driver has already waited for, by its position. *)
Definition joined (s : state) : Prop :=
  match driver s with
  | Putting _ | JoiningLoad => True
  | JoiningTag => load_worker s = Finished
  | JoiningPush =>
      load_worker s = Finished /\ terminated (tag_worker s) = true
  | Returned =>
      load_worker s = Finished /\ terminated (tag_worker s) = true
      /\ push_worker s = Finished
  end.

(** How the queues and threads of a run stand to each other: a queue
    holds its poison pill exactly between the moment its producer has
    finished and the moment its consumer finishes; only the tag worker can
    die; a finished worker leaves an empty inbound queue behind. *)
Record shape (s : state) : Prop := mkShape {
  shape_image :
    pill_last (negb (putting (driver s)) && is_running (load_worker s))
      (image_queue s);
  shape_tag :
    pill_last (is_finished (load_worker s)
               && negb (is_finished (tag_worker s)))
      (tag_queue s);
  shape_push :
    pill_last (is_finished (tag_worker s)
               && negb (is_finished (push_worker s)))
      (push_queue s);
  shape_load_alive : load_worker s = Running \/ load_worker s = Finished;
  shape_push_alive : push_worker s = Running \/ push_worker s = Finished;
  shape_load_done :
    load_worker s = Finished ->
    image_queue s = [] /\ putting (driver s) = false;
  shape_tag_done :
    tag_worker s = Finished -> tag_queue s = [] /\ load_worker s = Finished;
  shape_push_done :
    push_worker s = Finished ->
    push_queue s = [] /\ tag_worker s = Finished;
  shape_joined : joined s;
  shape_crash :
    forall e, tag_worker s = Crashed e -> failure_free (trace s) = false
}.

(** What the tag worker forwards for [image_details] when [docker tag]
    succeeds; [None] when [DockerContainer(image_details)] raises. *)
Definition retagged (new_tag destination_path image_details : string)
  : option string :=
  match DockerContainer_init image_details with
  | Ok imageObj => Some (new_image_tag new_tag destination_path imageObj)
  | Raise _ => None
  end.

(** While nothing has failed, the pipeline holds the batch in order: what
    was pushed, then what waits in [push_queue], then what the items of
    [tag_queue], of [image_queue] and the images not yet submitted will
    turn into. *)
Definition flow (extract : string -> string) (new_tag destination_path : string)
    (images : list string) (s : state) : Prop :=
  failure_free (trace s) = true ->
  map Some (pushes (trace s) ++ items (push_queue s))
  ++ map (retagged new_tag destination_path)
       (map snd (items (tag_queue s))
        ++ map extract (items (image_queue s) ++ remaining (driver s)))
  = map (retagged new_tag destination_path) (map extract images).

(** Everything upstream of the tag worker stems from the batch. *)
Definition sourced (extract : string -> string) (images : list string)
    (s : state) : Prop :=
  (forall p, In p (remaining (driver s)) -> In p images)
  /\ (forall p, In (Some p) (image_queue s) -> In p images)
  /\ (forall p d, In (Some (p, d)) (tag_queue s) ->
                  In p images /\ d = extract p).

(** [t] is the tag that a successful [docker tag] gave to an image of the
    batch: [destination_path/name:new_tag] with the name parsed from the
    reference of that image. *)
Definition justified (extract : string -> string)
    (new_tag destination_path : string) (images : list string)
    (tr : list event) (t : string) : Prop :=
  exists p c,
    In p images
    /\ DockerContainer_init (extract p) = Ok c
    /\ t = (destination_path ++ "/" ++ container_name c ++ ":" ++ new_tag)%string
    /\ In (DockerTag (extract p) t true) tr.

(** Whatever waits for the push worker or was handed to [docker push]
    came out of a successful [docker tag]. *)
Definition tagged (extract : string -> string)
    (new_tag destination_path : string) (images : list string)
    (s : state) : Prop :=
  (forall t, In (Some t) (push_queue s) ->
             justified extract new_tag destination_path images (trace s) t)
  /\ (forall t ok, In (DockerPush t ok) (trace s) ->
                   justified extract new_tag destination_path images
                     (trace s) t).

(** [t] is the new reference of the image loaded from [image_path]:
    [destination_path/name:new_tag], with the name parsed from the
    reference that the load stage attached to the image. *)
Definition retag_of (extract : string -> string)
    (new_tag destination_path : string) (image_path t : string) : Prop :=
  exists c,
    DockerContainer_init (extract image_path) = Ok c
    /\ t = (destination_path ++ "/" ++ container_name c ++ ":" ++ new_tag)%string.

(** Work left in a state: every move of every thread lowers it. *)
Definition driver_weight (pc : driver_pc) : nat :=
  match pc with
  | Putting images => 7 + 4 * length images
  | JoiningLoad => 3
  | JoiningTag => 2
  | JoiningPush => 1
  | Returned => 0
  end.

Definition work_left (s : state) : nat :=
  driver_weight (driver s)
  + 3 * length (image_queue s)
  + 2 * length (tag_queue s)
  + length (push_queue s).

(* ================================================================= *)
(** ** Sample batches *)

(** A stand-in for [extract_container_info_from_image_file]: the archive
    [a.tar.gz] carries an image without a tag. *)
Definition sample_image_details (image_path : string) : string :=
  if String.eqb image_path "a.tar.gz" then "invalid-format"
  else if String.eqb image_path "mysql.tar.gz"
       then "docker.io/stable/mysql:latest"
       else "docker.io/library/nginx:latest".

Definition sample_new_tag : string := "v2".
Definition sample_destination_path : string := "registry.example.com/team".

(** The driver submits the whole batch and the pill, the load worker
    drains its queue, the tag worker takes its first item, the driver
    joins what it can. *)
Definition schedule_until_tag : list (actor * bool) :=
  [(Driver, true); (Driver, true); (Driver, true);
   (Load, true); (Load, true); (Load, true);
   (Tag, true)].

Definition schedule_joins : list (actor * bool) :=
  [(Driver, true); (Driver, true)].

(** Every thread runs to its end, stage after stage, on two images. *)
Definition schedule_all_stages : list (actor * bool) :=
  [(Driver, true); (Driver, true); (Driver, true);
   (Load, true); (Load, true); (Load, true);
   (Tag, true); (Tag, true); (Tag, true);
   (Push, true); (Push, true); (Push, true);
   (Driver, true); (Driver, true); (Driver, true)].

(** The state of the batch [a.tar.gz], [b.tar.gz] after
    [schedule_until_tag], and after [schedule_joins] on top of it. *)
Definition state_after_crash : state :=
  mkState JoiningLoad []
    [Some ("b.tar.gz", "docker.io/library/nginx:latest"); None] []
    Finished (Crashed (ParsingError parse_error_message)) Running
    [DockerLoad "a.tar.gz" true; DockerLoad "b.tar.gz" true;
     Uncaught Tag (ParsingError parse_error_message)].

Definition state_hanging : state :=
  mkState JoiningPush []
    [Some ("b.tar.gz", "docker.io/library/nginx:latest"); None] []
    Finished (Crashed (ParsingError parse_error_message)) Running
    [DockerLoad "a.tar.gz" true; DockerLoad "b.tar.gz" true;
     Uncaught Tag (ParsingError parse_error_message)].

(* ================================================================= *)
(** ** The rest of the [DockerContainer] class *)

(** [DockerContainer.__repr__]. *)
Definition DockerContainer_repr (self : DockerContainer) : string :=
  if dict_truthy (info self) then
    "DockerContainer(hostname='" ++ hostname self
      ++ "', path='" ++ path self
      ++ "', name='" ++ container_name self
      ++ "', tag='" ++ tag self ++ "')"
  else "DockerContainer(invalid)".

(* ================================================================= *)
(** ** The ledger of a run *)

(** The archives handed to [docker load], in order, whatever the outcome;
    and those that it loaded. *)
Fixpoint load_attempts (tr : list event) : list string :=
  match tr with
  | [] => []
  | DockerLoad image_path _ :: tr' => image_path :: load_attempts tr'
  | _ :: tr' => load_attempts tr'
  end.

Fixpoint loaded_ok (tr : list event) : list string :=
  match tr with
  | [] => []
  | DockerLoad image_path true :: tr' => image_path :: loaded_ok tr'
  | _ :: tr' => loaded_ok tr'
  end.

(** The references handed to [docker tag] as its source, in order,
    whatever the outcome; and the new references that it applied. *)
Fixpoint tag_attempts (tr : list event) : list string :=
  match tr with
  | [] => []
  | DockerTag image_details _ _ :: tr' => image_details :: tag_attempts tr'
  | _ :: tr' => tag_attempts tr'
  end.

Fixpoint tagged_ok (tr : list event) : list string :=
  match tr with
  | [] => []
  | DockerTag _ new_reference true :: tr' => new_reference :: tagged_ok tr'
  | _ :: tr' => tagged_ok tr'
  end.

(** [sub] is [l] with some elements left out, the others in place. *)
Inductive subseq {A : Type} : list A -> list A -> Prop :=
| subseq_nil : subseq [] []
| subseq_take : forall x sub l, subseq sub l -> subseq (x :: sub) (x :: l)
| subseq_skip : forall x sub l, subseq sub l -> subseq sub (x :: l).

(** Stage by stage, what has been attempted plus what still waits is what
    the stage before has let through.  When the tag worker has died, the
    item it died on is accounted for: it had a reference that does not
    parse. *)
Definition ledger (extract : string -> string) (images : list string)
    (s : state) : Prop :=
  load_attempts (trace s) ++ items (image_queue s) ++ remaining (driver s)
  = images
  /\ match tag_worker s with
     | Crashed _ =>
         exists fatal,
           (exists e, DockerContainer_init fatal = Raise e)
           /\ map extract (loaded_ok (trace s))
              = tag_attempts (trace s)
                ++ fatal :: map snd (items (tag_queue s))
     | _ =>
         map extract (loaded_ok (trace s))
         = tag_attempts (trace s) ++ map snd (items (tag_queue s))
     end
  /\ pushes (trace s) ++ items (push_queue s) = tagged_ok (trace s).

(** The images still in flight, in pipeline order, are a subsequence of
    the batch, and those past the tag stage carry their new reference. *)
Definition in_order (extract : string -> string)
    (new_tag destination_path : string) (images : list string)
    (s : state) : Prop :=
  exists pushed waiting,
    subseq (pushed ++ waiting ++ map fst (items (tag_queue s))
              ++ items (image_queue s) ++ remaining (driver s))
      images
    /\ Forall2 (retag_of extract new_tag destination_path)
         pushed (pushes (trace s))
    /\ Forall2 (retag_of extract new_tag destination_path)
         waiting (items (push_queue s)).

(** Whatever waits for the tag worker was loaded. *)
Definition loaded_before_tag (s : state) : Prop :=
  forall p d,
    In (Some (p, d)) (tag_queue s) -> In (DockerLoad p true) (trace s).

(** Every exception that ended a thread is the [ParsingError] of the tag
    worker, raised for an image of the batch that was loaded and whose
    reference has no single colon in its last component. *)
Definition crash_explained (extract : string -> string)
    (images : list string) (s : state) : Prop :=
  forall who e,
    In (Uncaught who e) (trace s) ->
    who = Tag
    /\ e = ParsingError parse_error_message
    /\ tag_worker s = Crashed e
    /\ exists p,
         In p images
         /\ In (DockerLoad p true) (trace s)
         /\ count_char ":" (last (split "/" (extract p)) EmptyString) <> 1.

(** A complete run of the batch [mysql.tar.gz], [nginx.tar.gz] in which
    [docker load] fails on the first archive and [docker push] fails on
    the reference of the second, and the state it ends in. *)
Definition schedule_with_failures : list (actor * bool) :=
  [(Driver, true); (Driver, true); (Driver, true);
   (Load, false); (Load, true); (Load, true);
   (Tag, true); (Tag, true);
   (Push, false); (Push, true);
   (Driver, true); (Driver, true); (Driver, true)].

Definition state_after_failures : state :=
  mkState Returned [] [] [] Finished Finished Finished
    [DockerLoad "mysql.tar.gz" false; DockerLoad "nginx.tar.gz" true;
     DockerTag "docker.io/library/nginx:latest"
       "registry.example.com/team/nginx:v2" true;
     DockerPush "registry.example.com/team/nginx:v2" false].

(* ================================================================= *)
(** ** Unit tests of tests/test_docker_container.py, replayed *)

Example test_extract_container_info_valid :
  map (fun full =>
         match DockerContainer_init full with
         | Ok c => Some (components_of c)
         | Raise _ => None
         end)
    ["docker.io/library/nginx:latest";
     "quay.io/my-project/webserver:v1.0";
     "registry.example.com/my-org/app:v2.0";
     "docker.io/stable/mysql:latest";
     "gitlab.com/group/repo/image:v3.0";
     "github.com/username/project:v4.0";
     "docker.io/community/database:latest";
     "cloud.example/my-app:latest";
     "registry.example.com/my-group/web:v5.0";
     "docker.io/third-party/proxy:latest"]
  = [Some ("docker.io", "library", "nginx", "latest");
     Some ("quay.io", "my-project", "webserver", "v1.0");
     Some ("registry.example.com", "my-org", "app", "v2.0");
     Some ("docker.io", "stable", "mysql", "latest");
     Some ("gitlab.com", "group/repo", "image", "v3.0");
     Some ("github.com", "username", "project", "v4.0");
     Some ("docker.io", "community", "database", "latest");
     Some ("cloud.example", "", "my-app", "latest");
     Some ("registry.example.com", "my-group", "web", "v5.0");
     Some ("docker.io", "third-party", "proxy", "latest")].
Proof. reflexivity. Qed.

Example test_extract_container_info_invalid :
  DockerContainer_init "invalid-format"
  = Raise (ParsingError
             "Failed to parse container info: Invalid docker image path").
Proof. reflexivity. Qed.

(** Python semantics of the primitives, on small inputs. *)
Example split_examples :
  split "/" "a//b" = ["a"; ""; "b"]
  /\ split "/" "" = [""]
  /\ split "/" "/" = [""; ""]
  /\ split ":" "name:tag" = ["name"; "tag"]
  /\ split ":" "localhost:5000" = ["localhost"; "5000"]
  /\ split ":" "a:b:c" = ["a"; "b"; "c"].
Proof. repeat split. Qed.

Example slice_examples :
  slice (Some 1%Z) (Some (-1)%Z) ["a"; "b"; "c"; "d"] = ["b"; "c"]
  /\ slice (Some 1%Z) (Some (-1)%Z) ["a"; "b"] = @nil string
  /\ slice (Some 1%Z) (Some (-1)%Z) ["a"] = @nil string
  /\ slice None (Some (-1)%Z) ["a"; "b"] = ["a"]
  /\ slice None (Some (-1)%Z) ["a"] = @nil string
  /\ slice None (Some (-1)%Z) (@nil string) = [].
Proof. repeat split. Qed.

Example getitem_examples :
  getitem ["a"; "b"] 0 = Ok "a"
  /\ getitem ["a"; "b"] (-1) = Ok "b"
  /\ getitem ["a"; "b"] 2 = Raise IndexError
  /\ getitem (@nil string) 0 = Raise IndexError
  /\ getitem (@nil string) (-1) = Raise IndexError.
Proof. repeat split. Qed.

Example str_in_examples :
  str_in "." "docker.io" = true
  /\ str_in "." "library" = false
  /\ str_in "" "" = true
  /\ str_in "ab" "cabd" = true.
Proof. repeat split. Qed.

Example join_examples :
  join "/" [] = ""
  /\ join "/" ["group"; "repo"] = "group/repo"
  /\ join "/" [""; ""] = "/".
Proof. repeat split. Qed.

Example test_full_name :
  option_map full_name
    (match DockerContainer_init "docker.io/library/nginx:latest" with
     | Ok c => Some c | Raise _ => None end)
  = Some "docker.io/library/nginx:latest".
Proof. reflexivity. Qed.

(* ================================================================= *)
(** ** Facts about [split], [join], [in] and slices *)

Lemma split_not_nil (sep : ascii) (s : string) : split sep s <> [].
Proof.
  destruct s as [|c rest]; simpl; [discriminate|].
  destruct (Ascii.eqb c sep); [discriminate|].
  destruct (split sep rest); discriminate.
Qed.

Lemma split_cons (sep c : ascii) (rest : string) :
  split sep (String c rest) =
    if Ascii.eqb c sep then EmptyString :: split sep rest
    else String c (hd EmptyString (split sep rest)) :: tl (split sep rest).
Proof.
  simpl. destruct (Ascii.eqb c sep); [reflexivity|].
  destruct (split sep rest) eqn:E; [|reflexivity].
  now apply split_not_nil in E.
Qed.

(** [split] returns one piece more than there are separators. *)
Lemma length_split (sep : ascii) (s : string) :
  length (split sep s) = S (count_char sep s).
Proof.
  induction s as [|c rest IH]; [reflexivity|].
  rewrite split_cons. cbn [count_char].
  destruct (Ascii.eqb c sep); cbn [length]; [now rewrite IH|].
  destruct (split sep rest); cbn in *; lia.
Qed.

(** No piece contains the separator. *)
Lemma split_pieces_clean (sep : ascii) (s : string) :
  Forall (fun piece => count_char sep piece = 0) (split sep s).
Proof.
  induction s as [|c rest IH]; [repeat constructor|].
  rewrite split_cons.
  destruct (Ascii.eqb c sep) eqn:E; [constructor; [reflexivity|assumption]|].
  destruct (split sep rest) as [|piece pieces]; cbn [hd tl].
  - constructor; [cbn; now rewrite E|constructor].
  - inversion IH; subst. constructor; [cbn; now rewrite E|assumption].
Qed.

(** Joining the pieces with the separator gives the string back. *)
Lemma join_split (sep : ascii) (s : string) :
  join (String sep EmptyString) (split sep s) = s.
Proof.
  induction s as [|c rest IH]; [reflexivity|].
  rewrite split_cons.
  destruct (Ascii.eqb_spec c sep) as [->|Hne].
  - pose proof (split_not_nil sep rest) as Hnil.
    destruct (split sep rest) as [|piece pieces] eqn:E; [congruence|].
    cbn [join]. cbn [append]. now rewrite <- IH.
  - destruct (split sep rest) as [|piece pieces] eqn:E.
    + now apply split_not_nil in E.
    + cbn [hd tl]. rewrite <- IH.
      destruct pieces; reflexivity.
Qed.

Lemma count_char_app (c : ascii) (a b : string) :
  count_char c (a ++ b)%string = count_char c a + count_char c b.
Proof. induction a as [|d a IH]; cbn; [reflexivity|rewrite IH; lia]. Qed.

(** A string without separator is its own single piece. *)
Lemma split_clean (sep : ascii) (a : string) :
  count_char sep a = 0 -> split sep a = [a].
Proof.
  induction a as [|c a IH]; [reflexivity|].
  cbn [count_char]. rewrite split_cons.
  destruct (Ascii.eqb c sep); [discriminate|].
  intros H. rewrite IH by exact H. reflexivity.
Qed.

(** The first separator ends the first piece. *)
Lemma split_app_sep (sep : ascii) (a b : string) :
  count_char sep a = 0 ->
  split sep (a ++ String sep b)%string = a :: split sep b.
Proof.
  induction a as [|c a IH]; cbn [append count_char].
  - intros _. rewrite split_cons, Ascii.eqb_refl. reflexivity.
  - rewrite split_cons. destruct (Ascii.eqb c sep); [discriminate|].
    intros H. rewrite IH by exact H. reflexivity.
Qed.

(** [split] undoes [join] on a non-empty list of separator-free pieces. *)
Lemma split_join (sep : ascii) (pieces : list string) :
  pieces <> [] ->
  Forall (fun piece => count_char sep piece = 0) pieces ->
  split sep (join (String sep EmptyString) pieces) = pieces.
Proof.
  induction pieces as [|x rest IH]; [congruence|].
  intros _ Hall. inversion Hall as [|? ? Hx Hrest]; subst.
  destruct rest as [|y rest'].
  - cbn [join]. now apply split_clean.
  - change (join (String sep "") (x :: y :: rest'))
      with (x ++ String sep (join (String sep "") (y :: rest')))%string.
    rewrite split_app_sep by exact Hx.
    rewrite IH; [reflexivity|discriminate|assumption].
Qed.

Lemma str_app_assoc (a b c : string) :
  ((a ++ b) ++ c)%string = (a ++ (b ++ c))%string.
Proof. induction a as [|d a IH]; cbn; [reflexivity|now rewrite IH]. Qed.

Lemma join_snoc (sep : string) (pieces : list string) (x : string) :
  pieces <> [] ->
  join sep (pieces ++ [x]) = (join sep pieces ++ sep ++ x)%string.
Proof.
  induction pieces as [|y rest IH]; [congruence|]. intros _.
  destruct rest as [|z rest'].
  - reflexivity.
  - change (join sep ((y :: z :: rest') ++ [x]))
      with (y ++ sep ++ join sep ((z :: rest') ++ [x]))%string.
    rewrite IH by discriminate.
    cbn [join]. now rewrite !str_app_assoc.
Qed.

(** [c in s] for a one-character string [c] is "[c] occurs in [s]". *)
Lemma str_in_char (c : ascii) (s : string) :
  str_in (String c EmptyString) s = negb (Nat.eqb (count_char c s) 0).
Proof.
  induction s as [|d s IH]; [reflexivity|].
  cbn [str_in count_char String.prefix].
  destruct (ascii_dec c d) as [->|Hne].
  - rewrite Ascii.eqb_refl. destruct s; reflexivity.
  - destruct (Ascii.eqb_spec d c) as [->|_]; [congruence|].
    rewrite IH. reflexivity.
Qed.

Lemma str_in_char_false (c : ascii) (s : string) :
  str_in (String c EmptyString) s = false <-> count_char c s = 0.
Proof.
  rewrite str_in_char. destruct (count_char c s); cbn; split; congruence.
Qed.

Lemma nth_error_last {A : Type} (l : list A) (d : A) :
  l <> [] -> nth_error l (length l - 1) = Some (last l d).
Proof.
  induction l as [|x l IH]; [congruence|]. intros _.
  destruct l as [|y l']; [reflexivity|].
  change (last (x :: y :: l') d) with (last (y :: l') d).
  rewrite <- IH by discriminate.
  cbn [length]. replace (S (S (length l')) - 1) with (S (length l')) by lia.
  replace (S (length l') - 1) with (length l') by lia.
  reflexivity.
Qed.

(** [l[0]] and [l[-1]] on a non-empty list. *)
Lemma getitem_first {A : Type} (x : A) (l : list A) :
  getitem (x :: l) 0 = Ok x.
Proof.
  unfold getitem. cbn [Z.ltb Z.compare length].
  replace ((0 <=? 0)%Z && (0 <? Z.of_nat (S (length l)))%Z) with true.
  - reflexivity.
  - symmetry. apply andb_true_intro. split; [reflexivity|].
    apply Z.ltb_lt. lia.
Qed.

Lemma getitem_last {A : Type} (l : list A) (d : A) :
  l <> [] -> getitem l (-1) = Ok (last l d).
Proof.
  intros Hne. unfold getitem. cbn [Z.ltb Z.compare].
  assert (Hlen : length l <> 0) by (destruct l; [congruence|discriminate]).
  replace ((0 <=? -1 + Z.of_nat (length l))%Z
           && (-1 + Z.of_nat (length l) <? Z.of_nat (length l))%Z) with true.
  - replace (Z.to_nat (-1 + Z.of_nat (length l))) with (length l - 1) by lia.
    now rewrite (nth_error_last l d Hne).
  - symmetry. apply andb_true_intro. split;
      [apply Z.leb_le | apply Z.ltb_lt]; lia.
Qed.

(** [l[:-1]] and [l[1:-1]]. *)
Lemma slice_to_minus1 {A : Type} (l : list A) :
  slice None (Some (-1)%Z) l = removelast l.
Proof.
  unfold slice, slice_bound. cbn [Z.ltb Z.compare skipn].
  rewrite removelast_firstn_len. f_equal. lia.
Qed.

Lemma slice_1_to_minus1 {A : Type} (x : A) (l : list A) :
  slice (Some 1%Z) (Some (-1)%Z) (x :: l) = removelast l.
Proof.
  unfold slice, slice_bound. cbn [Z.ltb Z.compare length].
  replace (Nat.min (S (length l)) (Z.to_nat 1)) with 1 by lia.
  cbn [skipn]. rewrite removelast_firstn_len. f_equal. lia.
Qed.

Lemma firstn_nth_seq {A : Type} (d : A) (l : list A) (n : nat) :
  n <= length l -> firstn n l = map (fun i => nth i l d) (seq 0 n).
Proof.
  revert n. induction l as [|x l IH]; intros [|n] Hn; cbn in Hn;
    try reflexivity; try lia.
  cbn [firstn seq map nth]. f_equal.
  rewrite <- seq_shift, map_map. apply IH. lia.
Qed.

(** [removelast] in the index notation [c0 .. c(k-1)] of the claims. *)
Lemma removelast_nth_seq {A : Type} (d : A) (l : list A) :
  removelast l = map (fun i => nth i l d) (seq 0 (length l - 1)).
Proof.
  rewrite removelast_firstn_len.
  replace (Nat.pred (length l)) with (length l - 1) by lia.
  apply firstn_nth_seq. lia.
Qed.

Lemma removelast_tl_nth_seq {A : Type} (d x : A) (l : list A) :
  removelast l =
  map (fun i => nth i (x :: l) d) (seq 1 (length (x :: l) - 1 - 1)).
Proof.
  rewrite <- seq_shift, map_map. cbn [nth length].
  replace (S (length l) - 1 - 1) with (length l - 1) by lia.
  apply removelast_nth_seq.
Qed.

(* ================================================================= *)
(** ** What the parser computes *)

Lemma _parse_hostname_and_path_split (raw : string) :
  _parse_hostname_and_path (split "/" raw)
  = Ok (hostname_of (split "/" raw), path_of (split "/" raw)).
Proof.
  unfold _parse_hostname_and_path, hostname_of, path_of.
  pose proof (split_not_nil "/" raw) as Hne.
  destruct (split "/" raw) as [|c0 rest]; [congruence|].
  rewrite getitem_first. cbn [bind hd tl].
  rewrite slice_1_to_minus1, slice_to_minus1.
  destruct (str_in "." c0); reflexivity.
Qed.

(** [extract_container_info] in closed form: the outcome depends only on
    how many pieces the last component splits into at [:]. *)
Lemma extract_container_info_eq (raw : string) :
  extract_container_info raw =
  match split ":" (last (split "/" raw) EmptyString) with
  | [name; tag] =>
      Ok [("hostname", hostname_of (split "/" raw));
          ("path", path_of (split "/" raw));
          ("container_name", name);
          ("tag", tag)]
  | _ => Raise (ParsingError parse_error_message)
  end.
Proof.
  unfold extract_container_info.
  rewrite _parse_hostname_and_path_split. cbn [bind].
  rewrite (getitem_last _ EmptyString (split_not_nil "/" raw)). cbn [bind].
  unfold _parse_name_and_tag.
  destruct (split ":" (last (split "/" raw) "")) as [|a [|b [|c l]]];
    reflexivity.
Qed.

(** [DockerContainer(raw)] in closed form. *)
Lemma DockerContainer_init_eq (raw : string) :
  DockerContainer_init raw =
  match split ":" (last (split "/" raw) EmptyString) with
  | [name; tag] =>
      Ok (mkDockerContainer raw
            [("hostname", hostname_of (split "/" raw));
             ("path", path_of (split "/" raw));
             ("container_name", name);
             ("tag", tag)]
            (hostname_of (split "/" raw)) (path_of (split "/" raw)) name tag)
  | _ => Raise (ParsingError parse_error_message)
  end.
Proof.
  unfold DockerContainer_init. rewrite extract_container_info_eq.
  destruct (split ":" (last (split "/" raw) "")) as [|a [|b [|c l]]];
    reflexivity.
Qed.

(** The two pieces around the single [:] of the last component. *)
Lemma init_ok_inv (s : string) (c : DockerContainer) :
  DockerContainer_init s = Ok c ->
  split ":" (last (split "/" s) EmptyString) = [container_name c; tag c]
  /\ hostname c = hostname_of (split "/" s)
  /\ path c = path_of (split "/" s)
  /\ raw_container_name_string c = s
  /\ info c = [("hostname", hostname c); ("path", path c);
               ("container_name", container_name c); ("tag", tag c)].
Proof.
  rewrite DockerContainer_init_eq.
  destruct (split ":" (last (split "/" s) "")) as [|a [|b [|x l]]];
    try discriminate.
  intros H. injection H as <-. cbn. repeat split; reflexivity.
Qed.

Lemma init_raise_inv (s : string) (e : exn) :
  DockerContainer_init s = Raise e ->
  e = ParsingError parse_error_message
  /\ length (split ":" (last (split "/" s) EmptyString)) <> 2.
Proof.
  rewrite DockerContainer_init_eq.
  destruct (split ":" (last (split "/" s) "")) as [|a [|b [|x l]]];
    intros H; try discriminate; injection H as <-;
    (split; [reflexivity|cbn; lia]).
Qed.

Lemma last_component_clean (s : string) :
  count_char "/" (last (split "/" s) EmptyString) = 0.
Proof.
  pose proof (split_pieces_clean "/" s) as Hall.
  pose proof (split_not_nil "/" s) as Hne.
  rewrite Forall_forall in Hall. apply Hall.
  rewrite (app_removelast_last EmptyString Hne) at 2.
  apply in_or_app. right. now left.
Qed.

Lemma name_tag_join (s : string) (c : DockerContainer) :
  DockerContainer_init s = Ok c ->
  (container_name c ++ ":" ++ tag c)%string = last (split "/" s) EmptyString.
Proof.
  intros H. destruct (init_ok_inv s c H) as (Hsplit & _).
  rewrite <- (join_split ":" (last (split "/" s) "")), Hsplit. reflexivity.
Qed.

(** C2: parsing raises [ParsingError] exactly when the last [/]-separated
    component does not split at [:] into 2 pieces, that is when it does not
    hold exactly one colon ([invalid-format] holds none); with 2 pieces the
    constructor returns an object with all four attributes set from a
    complete [info] dictionary. *)
Theorem parse_fails_iff_not_two_parts (s : string) :
  let last_component := last (split "/" s) EmptyString in
  ((exists msg, DockerContainer_init s = Raise (ParsingError msg))
   <-> length (split ":" last_component) <> 2)
  /\ (length (split ":" last_component) = 2
      <-> count_char ":" last_component = 1)
  /\ (length (split ":" last_component) = 2 ->
      exists c, DockerContainer_init s = Ok c
        /\ raw_container_name_string c = s
        /\ info c = [("hostname", hostname c); ("path", path c);
                     ("container_name", container_name c); ("tag", tag c)]
        /\ [container_name c; tag c] = split ":" last_component)
  /\ (exists msg,
        DockerContainer_init "invalid-format" = Raise (ParsingError msg)).
Proof.
  cbv zeta. repeat split.
  - intros [msg H]. now apply init_raise_inv in H.
  - intros Hlen. rewrite DockerContainer_init_eq.
    destruct (split ":" (last (split "/" s) "")) as [|a [|b [|x l]]];
      try (eexists; reflexivity).
    now elim Hlen.
  - rewrite length_split. lia.
  - rewrite length_split. lia.
  - intros Hlen.
    destruct (DockerContainer_init s) as [c|e] eqn:E.
    + exists c. destruct (init_ok_inv s c E) as (H1 & _ & _ & H4 & H5).
      repeat split; auto.
    + apply init_raise_inv in E. tauto.
  - eexists. reflexivity.
Qed.

Lemma parse_fails_iff_not_two_parts_witness :
  exists c, DockerContainer_init "quay.io/my-project/webserver:v1.0" = Ok c
    /\ raw_container_name_string c = "quay.io/my-project/webserver:v1.0"
    /\ info c = [("hostname", hostname c); ("path", path c);
                 ("container_name", container_name c); ("tag", tag c)]
    /\ [container_name c; tag c] = ["webserver"; "v1.0"].
Proof.
  apply (proj1 (proj2 (proj2
           (parse_fails_iff_not_two_parts
              "quay.io/my-project/webserver:v1.0")))).
  reflexivity.
Defined.

(** C3, refuted as stated: the message of the [ParsingError] raised for
    [invalid-format] does not contain [invalid-format]. *)
Lemma parse_error_omits_raw_string :
  DockerContainer_init "invalid-format"
    = Raise (ParsingError
               "Failed to parse container info: Invalid docker image path")
  /\ str_in "invalid-format"
       "Failed to parse container info: Invalid docker image path" = false
  /\ ~ (forall s msg, DockerContainer_init s = Raise (ParsingError msg) ->
                      str_in s msg = true).
Proof.
  split; [reflexivity|]. split; [reflexivity|].
  intros H. specialize (H "invalid-format" _ eq_refl). discriminate H.
Qed.

(** C3, amended: whenever parsing fails, the exception is a [ParsingError]
    whose message is the same fixed text, whatever the input was. *)
Theorem parse_error_message_constant (s : string) (e : exn) :
  DockerContainer_init s = Raise e ->
  e = ParsingError
        "Failed to parse container info: Invalid docker image path".
Proof. intros H. now apply init_raise_inv in H. Qed.

Lemma parse_error_message_constant_witness :
  ParsingError "Failed to parse container info: Invalid docker image path"
  = ParsingError "Failed to parse container info: Invalid docker image path".
Proof.
  apply (parse_error_message_constant "name-without-tag"). reflexivity.
Defined.

(** C4: with [c0 .. ck] the [/]-separated components of the input, the
    hostname is [c0] and the path joins [c1 .. c(k-1)] when [c0] contains a
    dot; otherwise the hostname is [docker.io] and the path joins
    [c0 .. c(k-1)].  A constructed reference carries exactly these two
    values; [cloud.example/my-app:latest] has the empty path and
    [gitlab.com/group/repo/image:v3.0] the path [group/repo]. *)
Theorem hostname_and_path_rule (s : string) :
  let components := split "/" s in
  let k := length components - 1 in
  let c := fun i => nth i components EmptyString in
  let expected :=
    if str_in "." (c 0) then (c 0, join "/" (map c (seq 1 (k - 1))))
    else ("docker.io", join "/" (map c (seq 0 k))) in
  components = map c (seq 0 (S k))
  /\ _parse_hostname_and_path components = Ok expected
  /\ (forall d, DockerContainer_init s = Ok d ->
                (hostname d, path d) = expected)
  /\ (exists d, DockerContainer_init "cloud.example/my-app:latest" = Ok d
                /\ hostname d = "cloud.example" /\ path d = "")
  /\ (exists d, DockerContainer_init "gitlab.com/group/repo/image:v3.0" = Ok d
                /\ hostname d = "gitlab.com" /\ path d = "group/repo").
Proof.
  cbv zeta.
  pose proof (split_not_nil "/" s) as Hne.
  assert (Hexp :
    (hostname_of (split "/" s), path_of (split "/" s)) =
    (if str_in "." (nth 0 (split "/" s) "")
     then (nth 0 (split "/" s) "",
           join "/" (map (fun i => nth i (split "/" s) "")
                       (seq 1 (length (split "/" s) - 1 - 1))))
     else ("docker.io",
           join "/" (map (fun i => nth i (split "/" s) "")
                       (seq 0 (length (split "/" s) - 1)))))).
  { unfold hostname_of, path_of.
    destruct (split "/" s) as [|c0 rest]; [congruence|].
    cbn [hd tl]. change (nth 0 (c0 :: rest) "") with c0.
    rewrite <- (removelast_tl_nth_seq "" c0 rest).
    rewrite <- (removelast_nth_seq "" (c0 :: rest)).
    destruct (str_in "." c0); reflexivity. }
  split; [|split; [|split; [|split]]].
  - replace (S (length (split "/" s) - 1)) with (length (split "/" s))
      by (destruct (split "/" s); [congruence|cbn; lia]).
    rewrite <- (firstn_nth_seq "" (split "/" s) _ (le_n _)).
    now rewrite firstn_all.
  - rewrite _parse_hostname_and_path_split. now rewrite Hexp.
  - intros d Hd. destruct (init_ok_inv s d Hd) as (_ & Hh & Hp & _).
    rewrite Hh, Hp. exact Hexp.
  - eexists. repeat split.
  - eexists. repeat split.
Qed.

Lemma hostname_and_path_rule_witness :
  exists d, DockerContainer_init "registry.example.com/my-org/app:v2.0" = Ok d
    /\ (hostname d, path d) = ("registry.example.com", "my-org").
Proof.
  eexists. split; [reflexivity|].
  apply (proj1 (proj2 (proj2
           (hostname_and_path_rule "registry.example.com/my-org/app:v2.0")))).
  reflexivity.
Defined.

(* ================================================================= *)
(** ** Rendering and parsing again *)

Lemma Forall_removelast {A : Type} (P : A -> Prop) (l : list A) :
  Forall P l -> Forall P (removelast l).
Proof.
  induction 1 as [|x l Hx Hl IH]; [constructor|].
  destruct l; [constructor|]. cbn [removelast] in *. now constructor.
Qed.

Lemma hostname_of_clean (components : list string) :
  Forall (fun piece => count_char "/" piece = 0) components ->
  count_char "/" (hostname_of components) = 0.
Proof.
  intros Hall. unfold hostname_of.
  destruct (str_in "." (hd "" components)); [|reflexivity].
  destruct Hall; [reflexivity|assumption].
Qed.

Lemma hostname_of_dot (components : list string) :
  str_in "." (hostname_of components) = true.
Proof.
  unfold hostname_of.
  destruct (str_in "." (hd "" components)) eqn:E; [exact E|reflexivity].
Qed.

(** The path is a join of slash-free pieces. *)
Lemma path_of_join (components : list string) :
  Forall (fun piece => count_char "/" piece = 0) components ->
  exists middle,
    path_of components = join "/" middle
    /\ Forall (fun piece => count_char "/" piece = 0) middle.
Proof.
  intros Hall. unfold path_of.
  destruct (str_in "." (hd "" components)).
  - exists (removelast (tl components)). split; [reflexivity|].
    apply Forall_removelast. destruct Hall; [constructor|assumption].
  - exists (removelast components). split; [reflexivity|].
    now apply Forall_removelast.
Qed.

Lemma split_rendered_short (h l : string) :
  count_char "/" h = 0 -> count_char "/" l = 0 ->
  split "/" (h ++ "/" ++ l)%string = [h; l].
Proof.
  intros Hh Hl. change (h ++ "/" ++ l)%string with (h ++ String "/" l)%string.
  rewrite split_app_sep by exact Hh. now rewrite split_clean.
Qed.

Lemma split_rendered_long (h l : string) (middle : list string) :
  count_char "/" h = 0 -> count_char "/" l = 0 ->
  middle <> [] ->
  Forall (fun piece => count_char "/" piece = 0) middle ->
  split "/" (h ++ "/" ++ join "/" middle ++ "/" ++ l)%string
  = h :: middle ++ [l].
Proof.
  intros Hh Hl Hne Hall.
  rewrite <- (join_snoc "/" middle l Hne).
  change (h ++ "/" ++ join "/" (middle ++ [l]))%string
    with (h ++ String "/" (join "/" (middle ++ [l])))%string.
  rewrite split_app_sep by exact Hh. f_equal.
  apply split_join.
  - destruct middle; discriminate.
  - apply Forall_app. split; [assumption|]. now constructor.
Qed.

(** Parsing the rendering of a parsed reference gives the same four
    components, whether or not the first component held a dot. *)
Lemma reparse_stable (s : string) (c : DockerContainer) :
  DockerContainer_init s = Ok c ->
  exists c', reparse c = Ok c' /\ components_of c' = components_of c.
Proof.
  intros H.
  destruct (init_ok_inv s c H) as (Hsplit & Hh & Hp & _).
  pose proof (name_tag_join s c H) as Hjoin.
  pose proof (last_component_clean s) as Hlast.
  pose proof (split_pieces_clean "/" s) as Hall.
  pose proof (hostname_of_clean _ Hall) as Hhc.
  pose proof (hostname_of_dot (split "/" s)) as Hdot.
  destruct (path_of_join _ Hall) as (middle & Hpj & Hmid).
  rewrite <- Hh in Hhc, Hdot. rewrite <- Hp in Hpj.
  set (l := last (split "/" s) "") in *.
  unfold reparse, full_name. rewrite Hjoin.
  rewrite DockerContainer_init_eq.
  destruct (String.eqb_spec (path c) "") as [Hempty|Hnonempty].
  - rewrite split_rendered_short by assumption.
    cbn [last]. rewrite Hsplit.
    eexists. split; [reflexivity|].
    unfold components_of, hostname_of, path_of. cbn [hd tl removelast join].
    cbn [hostname path container_name tag]. rewrite Hdot, Hempty. reflexivity.
  - assert (Hne : middle <> []) by (intros ->; now apply Hnonempty).
    rewrite Hpj. rewrite split_rendered_long by assumption.
    change (hostname c :: middle ++ [l]) with ((hostname c :: middle) ++ [l]).
    rewrite last_last, Hsplit.
    eexists. split; [reflexivity|].
    unfold components_of, hostname_of, path_of.
    cbn [hostname path container_name tag]. cbn [hd tl app].
    rewrite Hdot, removelast_last, <- Hpj. reflexivity.
Qed.

(** C5: if the first [/]-separated component of [s] (its hostname) contains
    a dot and [s] parses, then parsing [full_name] of the parsed reference
    succeeds with the same hostname, path, name and tag:
    parse (render (parse s)) = parse s. *)
Theorem parse_render_parse (s : string) (c : DockerContainer) :
  str_in "." (hd EmptyString (split "/" s)) = true ->
  DockerContainer_init s = Ok c ->
  exists c',
    DockerContainer_init (full_name c) = Ok c'
    /\ (hostname c', path c', container_name c', tag c')
       = (hostname c, path c, container_name c, tag c).
Proof.
  intros _ H. exact (reparse_stable s c H).
Qed.

Lemma parse_render_parse_witness :
  exists c c',
    DockerContainer_init "gitlab.com/group/repo/image:v3.0" = Ok c
    /\ DockerContainer_init (full_name c) = Ok c'
    /\ (hostname c', path c', container_name c', tag c')
       = ("gitlab.com", "group/repo", "image", "v3.0").
Proof.
  eexists.
  destruct (parse_render_parse "gitlab.com/group/repo/image:v3.0" _
              eq_refl eq_refl) as (c' & Hc' & Heq).
  exists c'. split; [reflexivity|]. split; [exact Hc'|exact Heq].
Defined.

(** C6, refuted as stated: [cloud.example/:latest] is accepted with the
    empty name and [cloud.example/app:] with the empty tag. *)
Lemma empty_name_or_tag_accepted :
  (exists c, DockerContainer_init "cloud.example/:latest" = Ok c
             /\ container_name c = "" /\ tag c = "latest")
  /\ (exists c, DockerContainer_init "cloud.example/app:" = Ok c
                /\ container_name c = "app" /\ tag c = "")
  /\ ~ (forall s c, DockerContainer_init s = Ok c ->
                    container_name c <> "" /\ tag c <> "").
Proof.
  split; [eexists; repeat split|]. split; [eexists; repeat split|].
  intros H.
  destruct (H "cloud.example/:latest" _ eq_refl) as [Hname _].
  now apply Hname.
Qed.

(** C6, amended: in every reference the parser constructs, name and tag
    are the two pieces of the last [/]-separated component around its
    single [:]; neither contains [:] or [/], and either may be empty. *)
Theorem name_and_tag_shape (s : string) (c : DockerContainer) :
  DockerContainer_init s = Ok c ->
  (container_name c ++ ":" ++ tag c)%string = last (split "/" s) EmptyString
  /\ count_char ":" (container_name c) = 0
  /\ count_char ":" (tag c) = 0
  /\ count_char "/" (container_name c) = 0
  /\ count_char "/" (tag c) = 0.
Proof.
  intros H.
  pose proof (name_tag_join s c H) as Hjoin.
  destruct (init_ok_inv s c H) as (Hsplit & _).
  pose proof (split_pieces_clean ":" (last (split "/" s) "")) as Hcolon.
  rewrite Hsplit in Hcolon.
  inversion Hcolon as [|? ? Hn Ht']; subst. inversion Ht' as [|? ? Ht _]; subst.
  pose proof (last_component_clean s) as Hslash.
  rewrite <- Hjoin, !count_char_app in Hslash.
  repeat split; try assumption; lia.
Qed.

Lemma name_and_tag_shape_witness :
  exists c, DockerContainer_init "cloud.example/:latest" = Ok c
    /\ (container_name c ++ ":" ++ tag c)%string = ":latest".
Proof.
  eexists. split; [reflexivity|].
  apply (name_and_tag_shape "cloud.example/:latest"). reflexivity.
Defined.

(** C10: a single-component input with a dot and exactly one colon, such
    as [docker.io:latest], parses; its hostname is the whole input, the
    path is empty, name and tag are the two sides of the colon of that
    same input, and [full_name] gives the input twice around a slash, not
    the input. *)
Theorem single_component_hostname_is_input (s : string) :
  count_char "/" s = 0 ->
  str_in "." s = true ->
  count_char ":" s = 1 ->
  exists c,
    DockerContainer_init s = Ok c
    /\ hostname c = s
    /\ path c = ""
    /\ (container_name c ++ ":" ++ tag c)%string = s
    /\ full_name c = (s ++ "/" ++ s)%string
    /\ full_name c <> s.
Proof.
  intros Hslash Hdot Hcolon.
  assert (Hlen : length (split ":" s) = 2) by (rewrite length_split; lia).
  pose proof (join_split ":" s) as Hjoin.
  rewrite DockerContainer_init_eq, (split_clean "/" s Hslash).
  cbn [last]. unfold hostname_of, path_of. cbn [hd tl removelast join].
  rewrite Hdot.
  destruct (split ":" s) as [|a [|b [|x l]]]; try discriminate.
  cbn [join] in Hjoin.
  eexists. split; [reflexivity|].
  cbn [hostname path container_name tag full_name]. unfold full_name.
  cbn [hostname path container_name tag String.eqb].
  repeat split; try assumption.
  - now rewrite Hjoin.
  - rewrite Hjoin. intros Heq.
    apply (f_equal (count_char "/")) in Heq.
    rewrite !count_char_app, Hslash in Heq. discriminate Heq.
Qed.

Lemma single_component_hostname_is_input_witness :
  exists c,
    DockerContainer_init "docker.io:latest" = Ok c
    /\ hostname c = "docker.io:latest"
    /\ path c = ""
    /\ (container_name c ++ ":" ++ tag c)%string = "docker.io:latest"
    /\ full_name c = "docker.io:latest/docker.io:latest"
    /\ full_name c <> "docker.io:latest".
Proof.
  apply (single_component_hostname_is_input "docker.io:latest");
    reflexivity.
Defined.

(* ================================================================= *)
(** ** Queues with a poison pill *)

Lemma items_snoc_item {A : Type} (q : list (option A)) (x : A) :
  items (q ++ [Some x]) = items q ++ [x].
Proof.
  induction q as [|[y|] q IH]; cbn; [reflexivity| now rewrite IH |exact IH].
Qed.

Lemma items_snoc_pill {A : Type} (q : list (option A)) :
  items (q ++ [None]) = items q.
Proof.
  induction q as [|[y|] q IH]; cbn; [reflexivity| now rewrite IH |exact IH].
Qed.

Lemma pill_last_nil {A : Type} : pill_last false (@nil (option A)).
Proof. reflexivity. Qed.

Lemma pill_last_put {A : Type} (q : list (option A)) (x : A) :
  pill_last false q -> pill_last false (q ++ [Some x]).
Proof.
  unfold pill_last. intros H. rewrite items_snoc_item, map_app, app_nil_r.
  rewrite app_nil_r in H. now rewrite <- H.
Qed.

Lemma pill_last_put_pill {A : Type} (q : list (option A)) :
  pill_last false q -> pill_last true (q ++ [None]).
Proof.
  unfold pill_last. intros H. rewrite items_snoc_pill.
  rewrite app_nil_r in H. now rewrite <- H.
Qed.

Lemma pill_last_get {A : Type} (pill : bool) (x : A) (q : list (option A)) :
  pill_last pill (Some x :: q) -> pill_last pill q.
Proof. unfold pill_last. cbn. intros H. now injection H. Qed.

(** A pill at the head is the only element, and it was announced. *)
Lemma pill_last_get_pill {A : Type} (pill : bool) (q : list (option A)) :
  pill_last pill (None :: q) -> pill = true /\ q = [].
Proof.
  unfold pill_last. cbn [items].
  destruct (items q) as [|x l]; cbn; [|discriminate].
  destruct pill; [|discriminate]. intros H. now injection H.
Qed.

Lemma pill_last_true_cons {A : Type} (q : list (option A)) :
  pill_last true q -> exists x q', q = x :: q'.
Proof.
  unfold pill_last. destruct q as [|x q']; [|eauto].
  cbn. discriminate.
Qed.

Lemma pill_last_no_pill {A : Type} (q : list (option A)) :
  pill_last false q -> ~ In None q.
Proof.
  unfold pill_last. rewrite app_nil_r. intros -> Hin.
  apply in_map_iff in Hin. destruct Hin as (x & Hx & _). discriminate.
Qed.

Lemma failure_free_snoc (tr : list event) (ev : event) :
  failure_free (tr ++ [ev]) = failure_free tr && event_ok ev.
Proof.
  unfold failure_free. rewrite forallb_app. cbn. now rewrite andb_true_r.
Qed.

Lemma pushes_snoc (tr : list event) (ev : event) :
  pushes (tr ++ [ev]) =
  pushes tr ++ match ev with DockerPush t _ => [t] | _ => [] end.
Proof.
  induction tr as [|e tr IH]; [destruct ev; reflexivity|].
  destruct e; cbn; rewrite IH; reflexivity.
Qed.

(* ================================================================= *)
(** ** Runs of the pipeline *)

Section RetagAndPushProofs.

Variable extract_container_info_from_image_file : string -> string.
Variable new_tag : string.
Variable destination_path : string.

Local Abbreviation step' :=
  (step extract_container_info_from_image_file new_tag destination_path).
Local Abbreviation steps' :=
  (steps extract_container_info_from_image_file new_tag destination_path).
Local Abbreviation reachable' :=
  (reachable extract_container_info_from_image_file new_tag
     destination_path).
Local Abbreviation run' :=
  (run extract_container_info_from_image_file new_tag destination_path).
Local Abbreviation retagged' := (retagged new_tag destination_path).
Local Abbreviation extract' := extract_container_info_from_image_file.

(** Case analysis of one step: the state is opened into its fields and
    every test of the step function is decided. *)
Ltac open_step H :=
  unfold step, process_images_step, load_docker_image, tag_docker_image,
    push_docker_image in H;
  cbn [driver image_queue tag_queue push_queue load_worker tag_worker
       push_worker trace terminated] in H;
  repeat match type of H with
    | context [match ?x with _ => _ end] =>
        destruct x eqn:?; try discriminate H
    end;
  injection H as <-;
  cbn [driver image_queue tag_queue push_queue load_worker tag_worker
       push_worker trace] in *.

Lemma steps_trans (s1 s2 s3 : state) :
  steps' s1 s2 -> steps' s2 s3 -> steps' s1 s3.
Proof.
  intros H12 H23. induction H23 as [|s2 a ok s3 s4 _ IH Hstep];
    [assumption|].
  eapply steps_next; [apply IH; assumption|eassumption].
Qed.

Lemma steps_first (s1 s2 s3 : state) (a : actor) (ok : bool) :
  step' a ok s1 = Some s2 -> steps' s2 s3 -> steps' s1 s3.
Proof.
  intros Hstep H23. eapply steps_trans; [|eassumption].
  eapply steps_next; [apply steps_refl|eassumption].
Qed.

(** An executed schedule is a sequence of steps. *)
Lemma run_steps (schedule : list (actor * bool)) (s s' : state) :
  run' schedule s = Some s' -> steps' s s'.
Proof.
  revert s. induction schedule as [|[a ok] schedule IH]; intros s H.
  - injection H as <-. apply steps_refl.
  - cbn [run] in H.
    destruct (step' a ok s) as [s1|] eqn:E; [|discriminate].
    eapply steps_first; [eassumption|]. now apply IH.
Qed.

(** Every move of every thread consumes work. *)
Lemma step_work_left (a : actor) (ok : bool) (s s' : state) :
  step' a ok s = Some s' -> work_left s' < work_left s.
Proof.
  intros H. destruct s as [pc iq tq pq lw tw pw tr], a; open_step H;
    unfold work_left;
    cbn [driver image_queue tag_queue push_queue driver_weight length];
    rewrite ?length_app; cbn [length]; lia.
Qed.

Lemma shape_start (images : list string) :
  shape (process_images_start images).
Proof.
  constructor; cbn; try apply pill_last_nil; auto; discriminate.
Qed.

Lemma shape_step (a : actor) (ok : bool) (s s' : state) :
  shape s -> step' a ok s = Some s' -> shape s'.
Proof.
  intros [Hi Ht Hp Hla Hpa Hld Htd Hpd Hj Hc] H.
  destruct s as [pc iq tq pq lw tw pw tr], a; open_step H.
  all: unfold joined in *.
  all: cbn [driver image_queue tag_queue push_queue load_worker tag_worker
       push_worker trace putting is_running is_finished terminated
       negb andb] in *.
  all: repeat match goal with
       | H : pill_last _ (None :: _) |- _ =>
           apply pill_last_get_pill in H; destruct H as [? ?]; subst
       | H : pill_last _ (Some _ :: _) |- _ => apply pill_last_get in H
       end.
  all: try subst pc.
  all: destruct Hla as [Hla|Hla], Hpa as [Hpa|Hpa]; try discriminate;
    try subst lw; try subst pw.
  all: try (destruct tw as [| |e0]);
    cbn [is_running is_finished negb andb terminated] in *;
    try discriminate.
  all: try (destruct (Hld eq_refl) as [? ?]; try discriminate; subst);
    try (destruct (Htd eq_refl) as [? ?]; try discriminate; subst);
    try (destruct (Hpd eq_refl) as [? ?]; try discriminate; subst).
  all: repeat match goal with
       | H : pill_last true [] |- _ =>
           apply pill_last_true_cons in H; destruct H as (? & ? & H);
           discriminate H
       end.
  all: constructor;
    cbn [driver image_queue tag_queue push_queue load_worker tag_worker
         push_worker trace putting is_running is_finished terminated
         negb andb];
    try first [ assumption
              | apply pill_last_put; assumption
              | apply pill_last_put_pill; assumption
              | apply pill_last_nil ];
    auto; try (intros; discriminate); try (intros _; now split).
  all: try (rewrite andb_false_r; apply pill_last_nil).
  all: try (intros e' He'; rewrite failure_free_snoc;
            first [ rewrite (Hc _ eq_refl); reflexivity
                  | apply andb_false_r ]).
  all: try (unfold joined in *;
            cbn [driver load_worker tag_worker push_worker terminated]
              in *;
            destruct pc as [?| | | |]; cbn [putting negb andb] in *;
            intuition (auto; discriminate)).
  all: unfold joined in *;
    cbn [driver load_worker tag_worker push_worker terminated] in *;
    intuition auto.
Qed.

Local Abbreviation flow' :=
  (flow extract_container_info_from_image_file new_tag destination_path).
Local Abbreviation sourced' :=
  (sourced extract_container_info_from_image_file).
Local Abbreviation justified' :=
  (justified extract_container_info_from_image_file new_tag
     destination_path).

Lemma flow_start (images : list string) :
  flow' images (process_images_start images).
Proof. intros _. reflexivity. Qed.

Lemma flow_step (images : list string) (a : actor) (ok : bool)
    (s s' : state) :
  flow' images s -> step' a ok s = Some s' -> flow' images s'.
Proof.
  unfold flow. intros Hflow H.
  destruct s as [pc iq tq pq lw tw pw tr], a; open_step H;
    try subst pc; intros Hff;
    rewrite ?failure_free_snoc in Hff;
    cbn [event_ok] in Hff; rewrite ?andb_true_r, ?andb_false_r in Hff;
    try discriminate Hff;
    try (apply andb_true_iff in Hff; destruct Hff as [Hff _]);
    specialize (Hflow Hff); rewrite <- Hflow;
    rewrite ?pushes_snoc, ?items_snoc_item, ?items_snoc_pill;
    cbn [items remaining map snd app];
    rewrite ?map_app, ?app_nil_r, <- ?app_assoc;
    cbn [items remaining map snd app]; rewrite ?map_app;
    try reflexivity.
  unfold retagged.
  match goal with
  | E : DockerContainer_init _ = Ok _ |- _ => rewrite E
  end.
  reflexivity.
Qed.

Local Abbreviation tagged' :=
  (tagged extract_container_info_from_image_file new_tag destination_path).

Lemma sourced_start (images : list string) :
  sourced' images (process_images_start images).
Proof.
  unfold sourced. cbn. split; [auto|]. split; intros; contradiction.
Qed.

Lemma sourced_step (images : list string) (a : actor) (ok : bool)
    (s s' : state) :
  sourced' images s -> step' a ok s = Some s' -> sourced' images s'.
Proof.
  unfold sourced. intros (Hr & Hi & Ht) H.
  destruct s as [pc iq tq pq lw tw pw tr], a; open_step H;
    try subst pc; try subst iq; try subst tq;
    cbn [remaining] in *;
    (split; [|split]); intros;
    repeat match goal with
      | Hin : In _ (_ ++ [_]) |- _ =>
          apply in_app_or in Hin; destruct Hin as [Hin|[Hin|[]]]
      | Heq : Some _ = Some _ |- _ => injection Heq as ?; subst
      | Heq : (_, _) = (_, _) |- _ => injection Heq as ? ?; subst
      | Heq : None = Some _ |- _ => discriminate Heq
      end;
    try (split; [|reflexivity]);
    eauto using in_eq, in_cons; try contradiction.
Qed.

Lemma justified_snoc (images : list string) (tr : list event)
    (ev : event) (t : string) :
  justified' images tr t -> justified' images (tr ++ [ev]) t.
Proof.
  intros (p & c & Hp & Hc & Ht & Hin). exists p, c.
  repeat split; try assumption. apply in_or_app. now left.
Qed.

Lemma tagged_start (images : list string) :
  tagged' images (process_images_start images).
Proof. split; cbn; intros; contradiction. Qed.

Lemma tagged_step (images : list string) (a : actor) (ok : bool)
    (s s' : state) :
  sourced' images s -> tagged' images s ->
  step' a ok s = Some s' -> tagged' images s'.
Proof.
  unfold tagged. intros (_ & _ & Hsrc) (Hq & Hev) H.
  destruct s as [pc iq tq pq lw tw pw tr], a; open_step H;
    try subst pc; try subst iq; try subst tq; try subst pq;
    split; intros;
    repeat match goal with
      | Hin : In _ (_ ++ [_]) |- _ =>
          apply in_app_or in Hin; destruct Hin as [Hin|[Hin|[]]]
      | Heq : Some _ = Some _ |- _ => injection Heq as ?; subst
      | Heq : DockerPush _ _ = DockerPush _ _ |- _ =>
          injection Heq as ? ?; subst
      | Heq : _ = DockerPush _ _ |- _ => discriminate Heq
      | Heq : None = Some _ |- _ => discriminate Heq
      end;
    try solve [ apply justified_snoc; eauto using in_eq, in_cons
              | eauto using in_eq, in_cons ].
  destruct (Hsrc s s0 (in_eq _ _)) as [Hin ->].
  exists s, a. repeat split; try assumption.
  apply in_or_app. right. now left.
Qed.

(** The four invariants hold along every run. *)
Lemma reachable_invariants (images : list string) (s : state) :
  reachable' images s ->
  shape s /\ flow' images s /\ sourced' images s /\ tagged' images s.
Proof.
  unfold reachable. remember (process_images_start images) as s0 eqn:Es0.
  induction 1 as [s0|s0 a ok s1 s2 _ IH Hstep]; subst.
  - auto using shape_start, flow_start, sourced_start, tagged_start.
  - destruct (IH eq_refl) as (Hsh & Hfl & Hso & Hta).
    eauto 10 using shape_step, flow_step, sourced_step, tagged_step.
Qed.

Lemma reachable_steps (images : list string) (s s' : state) :
  reachable' images s -> steps' s s' -> reachable' images s'.
Proof. unfold reachable. apply steps_trans. Qed.

(** *** The sentinel protocol, one worker at a time *)

(** A worker that dequeues the poison pill ends its loop; the load and
    tag workers put one pill on their outbound queue, the push worker
    puts nothing anywhere; no inbound queue gets the pill back. *)
Lemma load_forwards_pill (ok : bool) (s : state) (q : list (option string)) :
  load_worker s = Running -> image_queue s = None :: q ->
  step' Load ok s =
    Some (mkState (driver s) q (tag_queue s ++ [None]) (push_queue s)
            Finished (tag_worker s) (push_worker s) (trace s)).
Proof. intros Hw Hq. cbn. unfold load_docker_image. now rewrite Hw, Hq. Qed.

Lemma tag_forwards_pill (ok : bool) (s : state)
    (q : list (option (string * string))) :
  tag_worker s = Running -> tag_queue s = None :: q ->
  step' Tag ok s =
    Some (mkState (driver s) (image_queue s) q (push_queue s ++ [None])
            (load_worker s) Finished (push_worker s) (trace s)).
Proof. intros Hw Hq. cbn. unfold tag_docker_image. now rewrite Hw, Hq. Qed.

Lemma push_consumes_pill (ok : bool) (s : state) (q : list (option string)) :
  push_worker s = Running -> push_queue s = None :: q ->
  step' Push ok s =
    Some (mkState (driver s) (image_queue s) (tag_queue s) q
            (load_worker s) (tag_worker s) Finished (trace s)).
Proof. intros Hw Hq. cbn. unfold push_docker_image. now rewrite Hw, Hq. Qed.

(** A thread that has ended makes no further move. *)
Lemma ended_worker_is_silent (ok : bool) (s : state) :
  (load_worker s <> Running -> step' Load ok s = None)
  /\ (tag_worker s <> Running -> step' Tag ok s = None)
  /\ (push_worker s <> Running -> step' Push ok s = None)
  /\ (driver s = Returned -> step' Driver ok s = None).
Proof.
  cbn. unfold load_docker_image, tag_docker_image, push_docker_image,
    process_images_step.
  repeat split; intros H.
  - destruct (load_worker s); congruence.
  - destruct (tag_worker s); congruence.
  - destruct (push_worker s); congruence.
  - now rewrite H.
Qed.


(** A queue never holds more than one poison pill, and holds it last. *)
Lemma one_pill_per_queue (images : list string) (s : state) :
  reachable' images s ->
  (exists b, pill_last b (image_queue s))
  /\ (exists b, pill_last b (tag_queue s))
  /\ (exists b, pill_last b (push_queue s)).
Proof.
  intros Hreach.
  destruct (reachable_invariants images s Hreach)
    as ([Hi Ht Hp _ _ _ _ _ _ _] & _).
  repeat split; eexists; eassumption.
Qed.

(** Once the tag worker has died, it stays dead. *)
Lemma crash_persists (a : actor) (ok : bool) (s s' : state) (e : exn) :
  tag_worker s = Crashed e -> step' a ok s = Some s' ->
  tag_worker s' = Crashed e.
Proof.
  intros He H. destruct s as [pc iq tq pq lw tw pw tr], a; open_step H;
    cbn in He; congruence.
Qed.

Lemma crash_persists_steps (s s' : state) (e : exn) :
  tag_worker s = Crashed e -> steps' s s' -> tag_worker s' = Crashed e.
Proof.
  intros He H. induction H as [|s a ok s1 s2 _ IH Hstep]; [assumption|].
  eapply crash_persists; [apply IH; assumption|eassumption].
Qed.

(** C8, on the runs that break it: when the tag worker dies from an
    exception its [except] clause does not name, then in every later
    state of the run it is still dead, no poison pill is in
    [push_queue], the push worker is still in its loop and
    [process_images] has not returned. *)
Theorem tag_crash_starves_push_worker (images : list string)
    (s s' : state) (e : exn) :
  reachable' images s ->
  tag_worker s = Crashed e ->
  steps' s s' ->
  tag_worker s' = Crashed e
  /\ ~ In None (push_queue s')
  /\ push_worker s' = Running
  /\ driver s' <> Returned.
Proof.
  intros Hreach He Hsteps.
  pose proof (crash_persists_steps s s' e He Hsteps) as He'.
  destruct (reachable_invariants images s'
              (reachable_steps images s s' Hreach Hsteps))
    as ([_ _ Hp _ Hpa _ _ Hpd Hj _] & _).
  rewrite He' in Hp. cbn [is_finished andb] in Hp.
  assert (Hrun : push_worker s' = Running).
  { destruct Hpa as [Hpa|Hpa]; [assumption|].
    destruct (Hpd Hpa) as [_ Hfin]. congruence. }
  repeat split; try assumption.
  - now apply pill_last_no_pill.
  - intros Hret. unfold joined in Hj. rewrite Hret in Hj.
    destruct Hj as (_ & _ & Hfin). congruence.
Qed.

(** *** Runs without failure *)

Local Abbreviation retag_of' :=
  (retag_of extract_container_info_from_image_file new_tag
     destination_path).

Lemma retagged_Forall2 (done : list string) (l : list string) :
  map Some l = map retagged' (map extract' done) ->
  Forall2 retag_of' done l.
Proof.
  revert l. induction done as [|p done IH]; intros [|t l] H;
    try discriminate; [constructor|].
  cbn in H. injection H as Ht H. constructor; [|now apply IH].
  unfold retagged in Ht. unfold retag_of.
  destruct (DockerContainer_init (extract' p)) as [c|]; [|discriminate].
  injection Ht as ->. now exists c.
Qed.

(** While nothing has failed and the driver has not returned, some
    thread can move without failing, provided every image of the batch
    has a reference that parses. *)
Lemma progress (images : list string) (s : state) :
  Forall (fun p => exists c, DockerContainer_init (extract' p) = Ok c)
    images ->
  shape s -> sourced' images s ->
  failure_free (trace s) = true ->
  driver s <> Returned ->
  exists a s', step' a true s = Some s' /\ failure_free (trace s') = true.
Proof.
  intros Hparse [Hi Ht Hp Hla Hpa Hld Htd Hpd Hj Hc] (_ & _ & Hsrc)
    Hff Hnot.
  rewrite Forall_forall in Hparse.
  destruct s as [pc iq tq pq lw tw pw tr]. unfold joined in Hj.
  cbn [driver image_queue tag_queue push_queue load_worker tag_worker
       push_worker trace] in *.
  assert (Htw : tw = Running \/ tw = Finished).
  { destruct tw as [| |e]; auto. rewrite (Hc e eq_refl) in Hff.
    discriminate. }
  destruct pc as [[|image rest]| | | |]; try contradiction;
    try (now elim Hnot); cbn [putting negb andb] in *.
  - exists Driver. eexists. split; [reflexivity|assumption].
  - exists Driver. eexists. split; [reflexivity|assumption].
  - (* thread.join() on the load worker *)
    destruct Hla as [->| ->].
    + cbn [is_running] in Hi.
      destruct (pill_last_true_cons _ Hi) as ([p|] & q & ->);
        exists Load; eexists; (split; [reflexivity|]); cbn [trace];
        rewrite ?failure_free_snoc, ?Hff; reflexivity.
    + exists Driver. eexists. split; [reflexivity|assumption].
  - (* thread.join() on the tag worker *)
    subst lw. destruct Htw as [->| ->].
    + cbn [is_finished negb andb] in Ht.
      destruct (pill_last_true_cons _ Ht) as ([[p d]|] & q & ->).
      * destruct (Hsrc p d (in_eq _ _)) as [Hin ->].
        destruct (Hparse p Hin) as [c Hc'].
        exists Tag. eexists. split.
        -- cbn. unfold tag_docker_image. cbn. rewrite Hc'. reflexivity.
        -- cbn [trace]. rewrite failure_free_snoc, Hff. reflexivity.
      * exists Tag. eexists. split; [reflexivity|assumption].
    + exists Driver. eexists. split; [reflexivity|assumption].
  - (* thread.join() on the push worker *)
    destruct Hj as [-> Hterm].
    destruct Htw as [->| ->]; [discriminate|].
    destruct Hpa as [->| ->].
    + cbn [is_finished negb andb] in Hp.
      destruct (pill_last_true_cons _ Hp) as ([t|] & q & ->);
        exists Push; eexists; (split; [reflexivity|]); cbn [trace];
        rewrite ?failure_free_snoc, ?Hff; reflexivity.
    + exists Driver. eexists. split; [reflexivity|assumption].
Qed.

(** Hence a run that has not failed can always be completed without
    failure: the driver returns. *)
Lemma completion (images : list string) :
  Forall (fun p => exists c, DockerContainer_init (extract' p) = Ok c)
    images ->
  forall (n : nat) (s : state),
    work_left s < n ->
    reachable' images s ->
    failure_free (trace s) = true ->
    exists s', steps' s s' /\ driver s' = Returned
               /\ failure_free (trace s') = true.
Proof.
  intros Hparse. induction n as [|n IH]; intros s Hn Hreach Hff; [lia|].
  destruct (driver s) as [rest| | | |] eqn:Edrv.
  5: { exists s. repeat split; [apply steps_refl|assumption..]. }
  all: destruct (reachable_invariants images s Hreach)
         as (Hsh & _ & Hso & _).
  all: destruct (progress images s Hparse Hsh Hso Hff)
         as (a & s1 & Hstep & Hff1); [congruence|].
  all: pose proof (step_work_left a true s s1 Hstep) as Hless.
  all: destruct (IH s1) as (s2 & Hsteps & Hret & Hff2);
         [lia| |assumption|].
  all: try (eapply reachable_steps; [exact Hreach|];
            eapply steps_next; [apply steps_refl|exact Hstep]).
  all: exists s2; repeat split; try assumption;
         eapply steps_first; eassumption.
Qed.

(** C9: when every image of the batch has a reference that parses and
    no load, tag or push action has failed, the tags that arrived at the
    push stage are, one for one and in submission order, the new
    references of a front part of the batch; of the whole batch once
    [process_images] has returned; until then some thread can always move,
    every move consumes work, and the run can be continued, without
    failure, until [process_images] returns. *)
Theorem no_failure_preserves_order (images : list string) (s : state) :
  Forall (fun p => exists c, DockerContainer_init (extract' p) = Ok c)
    images ->
  reachable' images s ->
  failure_free (trace s) = true ->
  (exists done rest,
      images = done ++ rest /\ Forall2 retag_of' done (pushes (trace s)))
  /\ (driver s = Returned ->
      Forall2 retag_of' images (pushes (trace s))
      /\ length (pushes (trace s)) = length images)
  /\ (driver s <> Returned ->
      exists a s', step' a true s = Some s'
                   /\ failure_free (trace s') = true
                   /\ work_left s' < work_left s)
  /\ (exists s',
        steps' s s' /\ driver s' = Returned
        /\ failure_free (trace s') = true
        /\ Forall2 retag_of' images (pushes (trace s'))).
Proof.
  intros Hparse Hreach Hff.
  assert (Hret : forall s1,
             reachable' images s1 -> failure_free (trace s1) = true ->
             driver s1 = Returned ->
             Forall2 retag_of' images (pushes (trace s1))).
  { intros s1 Hreach1 Hff1 Hret.
    destruct (reachable_invariants images s1 Hreach1)
      as ([_ _ _ _ _ Hld Htd Hpd Hj _] & Hflow & _).
    unfold joined in Hj. rewrite Hret in Hj.
    destruct Hj as (Hl & _ & Hp).
    destruct (Hpd Hp) as [Hpq Ht]. destruct (Htd Ht) as [Htq _].
    destruct (Hld Hl) as [Hiq _].
    specialize (Hflow Hff1). rewrite Hpq, Htq, Hiq, Hret in Hflow.
    cbn [items remaining map app] in Hflow.
    rewrite !app_nil_r in Hflow. now apply retagged_Forall2. }
  split; [|split; [|split]].
  - destruct (reachable_invariants images s Hreach) as (_ & Hflow & _).
    specialize (Hflow Hff). rewrite map_app, <- app_assoc in Hflow.
    symmetry in Hflow. rewrite map_map in Hflow.
    apply map_eq_app in Hflow.
    destruct Hflow as (done & rest & -> & Hdone & _).
    exists done, rest. split; [reflexivity|].
    apply retagged_Forall2. now rewrite map_map.
  - intros Hdrv. pose proof (Hret s Hreach Hff Hdrv) as Hall.
    split; [assumption|]. symmetry. eapply Forall2_length. eassumption.
  - intros Hdrv.
    destruct (reachable_invariants images s Hreach) as (Hsh & _ & Hso & _).
    destruct (progress images s Hparse Hsh Hso Hff Hdrv)
      as (a & s1 & Hstep & Hff1).
    exists a, s1. repeat split; try assumption.
    eapply step_work_left; eassumption.
  - destruct (completion images Hparse (S (work_left s)) s
                (Nat.lt_succ_diag_r _) Hreach Hff)
      as (s' & Hsteps & Hdrv & Hff').
    exists s'. repeat split; try assumption.
    apply Hret; try assumption.
    eapply reachable_steps; eassumption.
Qed.

(** C7: an iteration of the tag worker forwards something exactly when
    the reference of the item parses and [docker tag] succeeds, and then
    it forwards [destination_path/name:new_tag], with the name parsed
    from that reference, after tagging the reference so; and whatever
    waits for the push worker or reached it is such a string for an
    image of the batch. *)
Theorem retag_forwards_destination_name_tag (images : list string)
    (s : state) :
  reachable' images s ->
  (forall image_path image_details q ok s',
      tag_worker s = Running ->
      tag_queue s = Some (image_path, image_details) :: q ->
      step' Tag ok s = Some s' ->
      match DockerContainer_init image_details, ok with
      | Ok c, true =>
          let new_reference :=
            (destination_path ++ "/" ++ container_name c ++ ":"
               ++ new_tag)%string in
          push_queue s' = push_queue s ++ [Some new_reference]
          /\ trace s' =
               trace s ++ [DockerTag image_details new_reference true]
      | _, _ => push_queue s' = push_queue s
      end)
  /\ (forall t,
        In (Some t) (push_queue s)
        \/ (exists ok, In (DockerPush t ok) (trace s)) ->
        exists p c,
          In p images
          /\ DockerContainer_init (extract' p) = Ok c
          /\ t = (destination_path ++ "/" ++ container_name c ++ ":"
                    ++ new_tag)%string
          /\ In (DockerTag (extract' p) t true) (trace s)).
Proof.
  intros Hreach. split.
  - intros image_path image_details q ok s' Hw Hq H.
    cbn in H. unfold tag_docker_image in H. rewrite Hw, Hq in H.
    destruct (DockerContainer_init image_details) as [c|e];
      [destruct ok|]; injection H as <-; cbn; auto.
  - destruct (reachable_invariants images s Hreach)
      as (_ & _ & _ & Hq & Hev).
    intros t [Hin|[ok Hin]]; [exact (Hq t Hin)|exact (Hev t ok Hin)].
Qed.

End RetagAndPushProofs.

(* ================================================================= *)
(** ** The pipeline on sample batches *)

Lemma stuck_steps (extract : string -> string)
    (new_tag destination_path : string) (s s' : state) :
  stuck extract new_tag destination_path s ->
  steps extract new_tag destination_path s s' -> s' = s.
Proof.
  intros Hstuck H. induction H as [|s a ok s1 s2 _ IH Hstep]; [reflexivity|].
  rewrite (IH Hstuck), Hstuck in Hstep. discriminate.
Qed.

(** C1, evaluated on the batch [a.tar.gz], [b.tar.gz] whose first image
    has the reference [invalid-format]: the [ParsingError] is not
    intercepted in the tag worker, which dies with it; the next item and
    the poison pill stay in [tag_queue], nothing reaches the push stage,
    and the run ends in a state where no thread can move while
    [process_images] waits in [join()] for the push worker. *)
Theorem tag_worker_dies_on_parsing_error :
  run sample_image_details sample_new_tag sample_destination_path
    (schedule_until_tag ++ schedule_joins)
    (process_images_start ["a.tar.gz"; "b.tar.gz"])
  = Some state_hanging
  /\ tag_worker state_hanging
     = Crashed (ParsingError
                  "Failed to parse container info: Invalid docker image path")
  /\ tag_queue state_hanging
     = [Some ("b.tar.gz", "docker.io/library/nginx:latest"); None]
  /\ push_queue state_hanging = []
  /\ pushes (trace state_hanging) = []
  /\ driver state_hanging = JoiningPush
  /\ stuck sample_image_details sample_new_tag sample_destination_path
       state_hanging
  /\ (forall s',
        steps sample_image_details sample_new_tag sample_destination_path
          state_hanging s' ->
        driver s' <> Returned).
Proof.
  assert (Hstuck : stuck sample_image_details sample_new_tag
                     sample_destination_path state_hanging)
    by (intros [] []; reflexivity).
  repeat split; try reflexivity; try exact Hstuck.
  intros s' Hsteps. rewrite (stuck_steps _ _ _ _ _ Hstuck Hsteps).
  discriminate.
Qed.

Lemma tag_crash_starves_push_worker_witness :
  tag_worker state_hanging = Crashed (ParsingError parse_error_message)
  /\ ~ In None (push_queue state_hanging)
  /\ push_worker state_hanging = Running
  /\ driver state_hanging <> Returned.
Proof.
  apply (tag_crash_starves_push_worker
           sample_image_details sample_new_tag sample_destination_path
           ["a.tar.gz"; "b.tar.gz"] state_after_crash state_hanging).
  - apply (run_steps _ _ _ schedule_until_tag). reflexivity.
  - reflexivity.
  - apply (run_steps _ _ _ schedule_joins). reflexivity.
Defined.

Lemma no_failure_preserves_order_witness :
  Forall2
    (retag_of sample_image_details sample_new_tag sample_destination_path)
    ["mysql.tar.gz"; "nginx.tar.gz"]
    ["registry.example.com/team/mysql:v2";
     "registry.example.com/team/nginx:v2"].
Proof.
  refine (proj1 (proj1 (proj2
    (no_failure_preserves_order
       sample_image_details sample_new_tag sample_destination_path
       ["mysql.tar.gz"; "nginx.tar.gz"]
       (mkState Returned [] [] [] Finished Finished Finished
          [DockerLoad "mysql.tar.gz" true; DockerLoad "nginx.tar.gz" true;
           DockerTag "docker.io/stable/mysql:latest"
             "registry.example.com/team/mysql:v2" true;
           DockerTag "docker.io/library/nginx:latest"
             "registry.example.com/team/nginx:v2" true;
           DockerPush "registry.example.com/team/mysql:v2" true;
           DockerPush "registry.example.com/team/nginx:v2" true])
       _ _ _)) eq_refl)).
  - repeat constructor; eexists; reflexivity.
  - apply (run_steps _ _ _ schedule_all_stages). reflexivity.
  - reflexivity.
Defined.

Lemma retag_forwards_destination_name_tag_witness :
  exists p c,
    In p ["mysql.tar.gz"; "nginx.tar.gz"]
    /\ DockerContainer_init (sample_image_details p) = Ok c
    /\ "registry.example.com/team/nginx:v2"
       = (sample_destination_path ++ "/" ++ container_name c ++ ":"
            ++ sample_new_tag)%string
    /\ In (DockerTag (sample_image_details p)
             "registry.example.com/team/nginx:v2" true)
         [DockerLoad "mysql.tar.gz" true; DockerLoad "nginx.tar.gz" true;
          DockerTag "docker.io/stable/mysql:latest"
            "registry.example.com/team/mysql:v2" true;
          DockerTag "docker.io/library/nginx:latest"
            "registry.example.com/team/nginx:v2" true].
Proof.
  refine (proj2
    (retag_forwards_destination_name_tag
       sample_image_details sample_new_tag sample_destination_path
       ["mysql.tar.gz"; "nginx.tar.gz"]
       (mkState JoiningLoad [] [None]
          [Some "registry.example.com/team/mysql:v2";
           Some "registry.example.com/team/nginx:v2"]
          Finished Running Running
          [DockerLoad "mysql.tar.gz" true; DockerLoad "nginx.tar.gz" true;
           DockerTag "docker.io/stable/mysql:latest"
             "registry.example.com/team/mysql:v2" true;
           DockerTag "docker.io/library/nginx:latest"
             "registry.example.com/team/nginx:v2" true])
       _)
    "registry.example.com/team/nginx:v2" _).
  - apply (run_steps _ _ _
             [(Driver, true); (Driver, true); (Driver, true);
              (Load, true); (Load, true); (Load, true);
              (Tag, true); (Tag, true)]).
    reflexivity.
  - left. cbn. auto.
Defined.

(* ================================================================= *)
(** ** More on the parser: rendering, hostnames, [__repr__] *)

Lemma join_cons (sep x : string) (pieces : list string) :
  pieces <> [] ->
  join sep (x :: pieces) = (x ++ sep ++ join sep pieces)%string.
Proof. destruct pieces; [congruence|reflexivity]. Qed.

Lemma join_empty_inv (c : ascii) (pieces : list string) :
  join (String c EmptyString) pieces = EmptyString ->
  pieces = [] \/ pieces = [EmptyString].
Proof.
  destruct pieces as [|x [|y rest]]; cbn [join]; intros H; auto.
  - right. now rewrite H.
  - apply (f_equal (count_char c)) in H.
    rewrite count_char_app in H. cbn in H.
    rewrite Ascii.eqb_refl in H. lia.
Qed.

(** [split] distributes over a separator. *)
Lemma split_app (sep : ascii) (a b : string) :
  split sep (a ++ String sep b)%string = split sep a ++ split sep b.
Proof.
  induction a as [|c a IH]; cbn [append].
  - rewrite split_cons, Ascii.eqb_refl. reflexivity.
  - rewrite !(split_cons sep c), IH.
    destruct (Ascii.eqb c sep); [reflexivity|].
    pose proof (split_not_nil sep a) as Hne.
    destruct (split sep a); [congruence|reflexivity].
Qed.

(** The rendering in terms of the last component of the input. *)
Lemma full_name_last (s : string) (c : DockerContainer) :
  DockerContainer_init s = Ok c ->
  full_name c =
  (if String.eqb (path c) ""
   then hostname c ++ "/" ++ last (split "/" s) ""
   else hostname c ++ "/" ++ path c ++ "/" ++ last (split "/" s) "")%string.
Proof.
  intros H. unfold full_name. now rewrite (name_tag_join s c H).
Qed.

(** X1: an input with a dotted first component that parses is rendered
    back unchanged by [full_name], provided it has exactly two components
    or a non-empty path (this leaves out only [host//name:tag] and the
    single-component inputs). *)
Theorem full_name_reproduces_input (s : string) (c : DockerContainer) :
  DockerContainer_init s = Ok c ->
  str_in "." (hd EmptyString (split "/" s)) = true ->
  length (split "/" s) = 2 \/ path c <> "" ->
  full_name c = s.
Proof.
  intros H Hdot Hshape.
  rewrite (full_name_last s c H).
  destruct (init_ok_inv s c H) as (_ & Hh & Hp & _).
  pose proof (join_split "/" s) as Hs.
  rewrite Hh, Hp in *. clear Hh Hp H.
  unfold hostname_of, path_of in *. rewrite Hdot in *.
  remember (split "/" s) as components eqn:E. clear E.
  rewrite <- Hs. clear Hs.
  destruct components as [|c0 [|r rest]]; cbn [hd tl] in *.
  - destruct Hshape as [Hlen|Hne]; [discriminate|now elim Hne].
  - destruct Hshape as [Hlen|Hne]; [discriminate|now elim Hne].
  - change (last (c0 :: r :: rest) "") with (last (r :: rest) "").
    assert (Hrest : r :: rest
                    = removelast (r :: rest) ++ [last (r :: rest) ""])
      by (apply app_removelast_last; discriminate).
    set (middle := removelast (r :: rest)) in *.
    set (l := last (r :: rest) "") in *.
    rewrite Hrest.
    destruct (String.eqb_spec (join "/" middle) "") as [Hempty|Hnonempty].
    + destruct Hshape as [Hlen|Hne]; [|congruence].
      assert (Hmid : middle = []).
      { subst middle. destruct rest; [reflexivity|discriminate Hlen]. }
      rewrite Hmid. reflexivity.
    + assert (Hmid : middle <> [])
        by (intros E; rewrite E in Hnonempty; auto).
      rewrite join_cons by (destruct middle; discriminate).
      now rewrite (join_snoc "/" middle l Hmid).
Qed.

Lemma full_name_reproduces_input_witness :
  exists c,
    DockerContainer_init "registry.example.com:5000/a/b/app:v2" = Ok c
    /\ full_name c = "registry.example.com:5000/a/b/app:v2".
Proof.
  eexists. split; [reflexivity|].
  apply full_name_reproduces_input;
    [reflexivity|reflexivity|right; discriminate].
Defined.

(** X2: an input whose first component has no dot is rendered with the
    default hostname in front, [docker.io/] followed by the input,
    provided it is a single component or has a non-empty path (this
    leaves out only [/name:tag]). *)
Theorem full_name_prepends_default_hostname (s : string)
    (c : DockerContainer) :
  DockerContainer_init s = Ok c ->
  str_in "." (hd EmptyString (split "/" s)) = false ->
  length (split "/" s) = 1 \/ path c <> "" ->
  full_name c = ("docker.io/" ++ s)%string.
Proof.
  intros H Hdot Hshape.
  rewrite (full_name_last s c H).
  destruct (init_ok_inv s c H) as (_ & Hh & Hp & _).
  pose proof (join_split "/" s) as Hs.
  pose proof (split_not_nil "/" s) as Hne.
  rewrite Hh, Hp in *. clear Hh Hp H.
  unfold hostname_of, path_of in *. rewrite Hdot in *.
  remember (split "/" s) as components eqn:E. clear E.
  rewrite <- Hs. clear Hs.
  assert (Hall : components
                 = removelast components ++ [last components ""])
    by (now apply app_removelast_last).
  set (middle := removelast components) in *.
  set (l := last components "") in *.
  rewrite Hall.
  destruct (String.eqb_spec (join "/" middle) "") as [Hempty|Hnonempty].
  - destruct Hshape as [Hlen|Hnonempty]; [|congruence].
    assert (Hmid : middle = []).
    { subst middle. destruct components as [|x [|y r]];
        [reflexivity|reflexivity|discriminate Hlen]. }
    rewrite Hmid. reflexivity.
  - assert (Hmid : middle <> [])
      by (intros E; rewrite E in Hnonempty; auto).
    rewrite (join_snoc "/" middle l Hmid). reflexivity.
Qed.

Lemma full_name_prepends_default_hostname_witness :
  exists c,
    DockerContainer_init "library/nginx:latest" = Ok c
    /\ full_name c = "docker.io/library/nginx:latest".
Proof.
  eexists. split; [reflexivity|].
  apply (full_name_prepends_default_hostname "library/nginx:latest");
    [reflexivity|reflexivity|right; discriminate].
Defined.

(** X3: for every input the parser accepts, with or without a dotted
    first component, the rendering parses, and rendering the result gives
    the same string again: [full_name] is a canonical form. *)
Theorem full_name_is_canonical (s : string) (c : DockerContainer) :
  DockerContainer_init s = Ok c ->
  exists c',
    DockerContainer_init (full_name c) = Ok c'
    /\ full_name c' = full_name c
    /\ str_in "." (hd EmptyString (split "/" (full_name c))) = true.
Proof.
  intros H.
  destruct (reparse_stable s c H) as (c' & Hc' & Heq).
  unfold reparse in Hc'. exists c'. split; [assumption|].
  unfold components_of in Heq. injection Heq as Hh Hp Hn Ht.
  split.
  - unfold full_name. now rewrite Hh, Hp, Hn, Ht.
  - destruct (init_ok_inv s c H) as (_ & Hhost & _).
    pose proof (hostname_of_dot (split "/" s)) as Hdot.
    pose proof (hostname_of_clean _ (split_pieces_clean "/" s)) as Hclean.
    rewrite <- Hhost in Hdot, Hclean.
    unfold full_name.
    destruct (String.eqb (path c) "");
      match goal with
      | |- context [split "/" (hostname c ++ "/" ++ ?r)%string] =>
          change (hostname c ++ "/" ++ r)%string
            with (hostname c ++ String "/" r)%string
      end;
      rewrite split_app_sep by exact Hclean; exact Hdot.
Qed.

Lemma full_name_is_canonical_witness :
  exists c c',
    DockerContainer_init "nginx:latest" = Ok c
    /\ DockerContainer_init (full_name c) = Ok c'
    /\ full_name c' = "docker.io/nginx:latest".
Proof.
  eexists.
  destruct (full_name_is_canonical "nginx:latest" _ eq_refl)
    as (c' & Hc' & Heq & _).
  exists c'. split; [reflexivity|]. split; [exact Hc'|exact Heq].
Defined.

(** X4: the hostname of every constructed reference contains a dot and
    no slash; it is the first component of the input when that one has a
    dot, and [docker.io] otherwise, also when the input names a registry
    without a dot such as [localhost:5000], which then lands in the
    path. *)
Theorem hostname_shape (s : string) (c : DockerContainer) :
  DockerContainer_init s = Ok c ->
  str_in "." (hostname c) = true
  /\ count_char "/" (hostname c) = 0
  /\ (if str_in "." (hd EmptyString (split "/" s))
      then hostname c = hd EmptyString (split "/" s)
      else hostname c = "docker.io"
           /\ path c = join "/" (removelast (split "/" s))).
Proof.
  intros H. destruct (init_ok_inv s c H) as (_ & Hh & Hp & _).
  rewrite Hh, Hp. repeat split.
  - apply hostname_of_dot.
  - apply hostname_of_clean, split_pieces_clean.
  - unfold hostname_of, path_of.
    destruct (str_in "." (hd "" (split "/" s))); [reflexivity|now split].
Qed.

Lemma hostname_shape_witness :
  exists c,
    DockerContainer_init "localhost:5000/team/app:v1" = Ok c
    /\ hostname c = "docker.io" /\ path c = "localhost:5000/team".
Proof.
  eexists. split; [reflexivity|].
  apply (hostname_shape "localhost:5000/team/app:v1" _ eq_refl).
Defined.

(** X5: [_parse_hostname_and_path] raises, and then [IndexError], exactly
    on the empty list of components; [split] never returns that list, so
    the only exception that leaves [extract_container_info] is the
    [ParsingError] with its fixed message. *)
Theorem index_error_only_on_no_components (components : list string) :
  (components = [] <->
   _parse_hostname_and_path components = Raise IndexError)
  /\ (components <> [] ->
      exists hostname path,
        _parse_hostname_and_path components = Ok (hostname, path))
  /\ (forall s e,
        extract_container_info s = Raise e ->
        e = ParsingError parse_error_message).
Proof.
  repeat split.
  - now intros ->.
  - destruct components as [|c0 rest]; [reflexivity|].
    unfold _parse_hostname_and_path. rewrite getitem_first. cbn [bind].
    destruct (str_in "." c0); discriminate.
  - destruct components as [|c0 rest]; [congruence|]. intros _.
    unfold _parse_hostname_and_path. rewrite getitem_first. cbn [bind].
    destruct (str_in "." c0); eauto.
  - intros s e. rewrite extract_container_info_eq.
    destruct (split ":" (last (split "/" s) "")) as [|a [|b [|x l]]];
      intros H; try discriminate; now injection H as <-.
Qed.

Lemma index_error_only_on_no_components_witness :
  exists hostname path,
    _parse_hostname_and_path ["quay.io"; "my-project"; "webserver:v1.0"]
    = Ok (hostname, path).
Proof.
  apply (index_error_only_on_no_components
           ["quay.io"; "my-project"; "webserver:v1.0"]).
  discriminate.
Defined.

(** X6: [repr] of a constructed reference always shows the four fields;
    its [DockerContainer(invalid)] branch is never taken for an object
    that [__init__] returned, because [info] is then never empty. *)
Theorem repr_never_invalid (s : string) (c : DockerContainer) :
  DockerContainer_init s = Ok c ->
  DockerContainer_repr c
  = ("DockerContainer(hostname='" ++ hostname c
       ++ "', path='" ++ path c
       ++ "', name='" ++ container_name c
       ++ "', tag='" ++ tag c ++ "')")%string
  /\ DockerContainer_repr c <> "DockerContainer(invalid)".
Proof.
  intros H. destruct (init_ok_inv s c H) as (_ & _ & _ & _ & Hinfo).
  unfold DockerContainer_repr. rewrite Hinfo. cbn [dict_truthy].
  split; [reflexivity|]. cbn. discriminate.
Qed.

Lemma repr_never_invalid_witness :
  exists c,
    DockerContainer_init "docker.io/library/nginx:latest" = Ok c
    /\ DockerContainer_repr c
       = "DockerContainer(hostname='docker.io', path='library', name='nginx', tag='latest')".
Proof.
  eexists. split; [reflexivity|].
  apply (repr_never_invalid "docker.io/library/nginx:latest" _ eq_refl).
Defined.

Lemma name_clean (s : string) (c : DockerContainer) :
  DockerContainer_init s = Ok c ->
  count_char ":" (container_name c) = 0
  /\ count_char "/" (container_name c) = 0.
Proof.
  intros H.
  destruct (init_ok_inv s c H) as (Hsplit & _).
  pose proof (split_pieces_clean ":" (last (split "/" s) "")) as Hcolon.
  rewrite Hsplit in Hcolon. inversion Hcolon as [|? ? Hn _]; subst.
  pose proof (last_component_clean s) as Hslash.
  rewrite <- (name_tag_join s c H), !count_char_app in Hslash.
  split; [assumption|lia].
Qed.

(** X7: the reference that the tag worker builds for a parsed image
    parses again whenever [new_tag] holds no slash and no colon: its name
    is the name of the image, its tag is [new_tag], and hostname and path
    come from [destination_path] alone, by the dot rule. *)
Theorem new_image_tag_parses (new_tag destination_path s : string)
    (c : DockerContainer) :
  DockerContainer_init s = Ok c ->
  count_char "/" new_tag = 0 ->
  count_char ":" new_tag = 0 ->
  exists c',
    DockerContainer_init (new_image_tag new_tag destination_path c) = Ok c'
    /\ container_name c' = container_name c
    /\ tag c' = new_tag
    /\ (if str_in "." (hd EmptyString (split "/" destination_path))
        then hostname c' = hd EmptyString (split "/" destination_path)
             /\ path c' = join "/" (tl (split "/" destination_path))
        else hostname c' = "docker.io" /\ path c' = destination_path).
Proof.
  intros H Hslash Hcolon. destruct (name_clean s c H) as [Hnc Hns].
  unfold new_image_tag.
  change (destination_path ++ "/" ++ container_name c ++ ":" ++ new_tag)%string
    with (destination_path
            ++ String "/" (container_name c ++ String ":" new_tag))%string.
  rewrite DockerContainer_init_eq, split_app.
  rewrite (split_clean "/" (container_name c ++ String ":" new_tag))
    by (rewrite count_char_app; cbn; lia).
  rewrite last_last, split_app_sep by exact Hnc.
  rewrite (split_clean ":" new_tag Hcolon).
  eexists. split; [reflexivity|].
  cbn [hostname path container_name tag].
  split; [reflexivity|]. split; [reflexivity|].
  unfold hostname_of, path_of.
  pose proof (split_not_nil "/" destination_path) as Hne.
  pose proof (join_split "/" destination_path) as Hjoin.
  destruct (split "/" destination_path) as [|d0 rest]; [congruence|].
  cbn [hd tl app].
  destruct (str_in "." d0).
  - now rewrite removelast_last.
  - change (d0 :: rest ++ [(container_name c ++ String ":" new_tag)%string])
      with ((d0 :: rest) ++ [(container_name c ++ String ":" new_tag)%string]).
    now rewrite removelast_last.
Qed.

Lemma new_image_tag_parses_witness :
  exists c c',
    DockerContainer_init "docker.io/library/nginx:latest" = Ok c
    /\ DockerContainer_init
         (new_image_tag "v2" "registry.example.com/team" c) = Ok c'
    /\ container_name c' = "nginx"
    /\ tag c' = "v2"
    /\ hostname c' = "registry.example.com" /\ path c' = "team".
Proof.
  eexists.
  destruct (new_image_tag_parses "v2" "registry.example.com/team"
              "docker.io/library/nginx:latest" _ eq_refl eq_refl eq_refl)
    as (c' & Hc' & Hn & Ht & Hh).
  exists c'. split; [reflexivity|]. repeat split; try assumption.
  - exact (proj1 Hh).
  - exact (proj2 Hh).
Defined.

(* ================================================================= *)
(** ** Subsequences and the projections of a trace *)

Lemma subseq_nil_l {A : Type} (l : list A) : subseq [] l.
Proof. induction l; constructor; assumption. Qed.

Lemma subseq_refl {A : Type} (l : list A) : subseq l l.
Proof. induction l; constructor; assumption. Qed.

Lemma subseq_trans {A : Type} (l2 l3 : list A) :
  subseq l2 l3 -> forall l1, subseq l1 l2 -> subseq l1 l3.
Proof.
  induction 1 as [|x sub l _ IH|x sub l _ IH]; intros l1 H1.
  - assumption.
  - inversion H1; subst; constructor; auto.
  - constructor. auto.
Qed.

Lemma subseq_app_l {A : Type} (a b : list A) : subseq a (a ++ b).
Proof.
  induction a; cbn; [apply subseq_nil_l|now constructor].
Qed.

Lemma subseq_skip_mid {A : Type} (a b : list A) (x : A) :
  subseq (a ++ b) (a ++ x :: b).
Proof.
  induction a; cbn; [constructor; apply subseq_refl|now constructor].
Qed.

(** Leaving out one more element, or a tail, keeps a subsequence. *)
Lemma subseq_drop {A : Type} (a b l : list A) (x : A) :
  subseq (a ++ x :: b) l -> subseq (a ++ b) l.
Proof. intros H. eapply subseq_trans; [exact H|apply subseq_skip_mid]. Qed.

Lemma subseq_drop2 {A : Type} (a b d l : list A) (x : A) :
  subseq (a ++ b ++ x :: d) l -> subseq (a ++ b ++ d) l.
Proof. rewrite !app_assoc. apply subseq_drop. Qed.

Lemma subseq_drop3 {A : Type} (a b c d l : list A) (x : A) :
  subseq (a ++ b ++ c ++ x :: d) l -> subseq (a ++ b ++ c ++ d) l.
Proof. rewrite !app_assoc. apply subseq_drop. Qed.

Lemma subseq_length {A : Type} (sub l : list A) :
  subseq sub l -> length sub <= length l.
Proof. induction 1; cbn; lia. Qed.

Lemma subseq_prefix {A : Type} (a b l : list A) :
  subseq (a ++ b) l -> subseq a l.
Proof. intros H. eapply subseq_trans; [exact H|apply subseq_app_l]. Qed.

Lemma load_attempts_app (a b : list event) :
  load_attempts (a ++ b) = load_attempts a ++ load_attempts b.
Proof.
  induction a as [|[] a IH]; cbn; rewrite ?IH; reflexivity.
Qed.

Lemma loaded_ok_app (a b : list event) :
  loaded_ok (a ++ b) = loaded_ok a ++ loaded_ok b.
Proof.
  induction a as [|[? []|? ? ?|? ?|? ?] a IH]; cbn; rewrite ?IH; reflexivity.
Qed.

Lemma tag_attempts_app (a b : list event) :
  tag_attempts (a ++ b) = tag_attempts a ++ tag_attempts b.
Proof.
  induction a as [|[] a IH]; cbn; rewrite ?IH; reflexivity.
Qed.

Lemma tagged_ok_app (a b : list event) :
  tagged_ok (a ++ b) = tagged_ok a ++ tagged_ok b.
Proof.
  induction a as [|[? ?|? ? []|? ?|? ?] a IH]; cbn; rewrite ?IH; reflexivity.
Qed.

(* ================================================================= *)
(** ** Runs with failures: who saw what, and in which order *)

Section RetagAndPushLedger.

Variable extract_container_info_from_image_file : string -> string.
Variable new_tag : string.
Variable destination_path : string.

Local Abbreviation step_ :=
  (step extract_container_info_from_image_file new_tag destination_path).
Local Abbreviation steps_ :=
  (steps extract_container_info_from_image_file new_tag destination_path).
Local Abbreviation reachable_ :=
  (reachable extract_container_info_from_image_file new_tag
     destination_path).
Local Abbreviation run_ :=
  (run extract_container_info_from_image_file new_tag destination_path).
Local Abbreviation extract_ := extract_container_info_from_image_file.
Local Abbreviation ledger_ := (ledger extract_container_info_from_image_file).
Local Abbreviation retag_of_ :=
  (retag_of extract_container_info_from_image_file new_tag destination_path).
Local Abbreviation in_order_ :=
  (in_order extract_container_info_from_image_file new_tag destination_path).
Local Abbreviation sourced_ :=
  (sourced extract_container_info_from_image_file).
Local Abbreviation crash_explained_ :=
  (crash_explained extract_container_info_from_image_file).
Local Abbreviation invariants_ :=
  (reachable_invariants extract_container_info_from_image_file new_tag
     destination_path).

(** One step, opened into the fields of the state and the tests of the
    step function. *)
Ltac open_move H :=
  unfold step, process_images_step, load_docker_image, tag_docker_image,
    push_docker_image in H;
  cbn [driver image_queue tag_queue push_queue load_worker tag_worker
       push_worker trace terminated] in H;
  repeat match type of H with
    | context [match ?x with _ => _ end] =>
        destruct x eqn:?; try discriminate H
    end;
  injection H as <-;
  cbn [driver image_queue tag_queue push_queue load_worker tag_worker
       push_worker trace] in *.

Ltac tidy_ledger :=
  rewrite ?load_attempts_app, ?loaded_ok_app, ?tag_attempts_app,
    ?tagged_ok_app, ?pushes_snoc, ?items_snoc_item, ?items_snoc_pill;
  cbn [load_attempts loaded_ok tag_attempts tagged_ok items remaining
       map snd fst app];
  rewrite ?map_app, ?app_nil_r, <- ?app_assoc;
  cbn [load_attempts loaded_ok tag_attempts tagged_ok items remaining
       map snd fst app].

Lemma ledger_start (images : list string) :
  ledger_ images (process_images_start images).
Proof. repeat split. Qed.

Lemma ledger_step (images : list string) (a : actor) (ok : bool)
    (s s' : state) :
  ledger_ images s -> step_ a ok s = Some s' -> ledger_ images s'.
Proof.
  unfold ledger. intros (L1 & L2 & L3) H.
  destruct s as [pc iq tq pq lw tw pw tr], a; open_move H;
    try subst pc; try subst iq; try subst tq; try subst pq;
    cbn [items remaining map snd app] in L1, L2, L3;
    (split; [|split]); tidy_ledger; try assumption;
    try (destruct tw as [| |e0];
         [ rewrite L2, <- ?app_assoc; reflexivity
         | rewrite L2, <- ?app_assoc; reflexivity
         | destruct L2 as (fatal & Hfatal & L2); exists fatal;
           split; [assumption|];
           rewrite L2, <- ?app_assoc; reflexivity ]).
  all: try (rewrite app_nil_r in L1; exact L1).
  - now rewrite <- L3, <- app_assoc.
  - match goal with
    | E : DockerContainer_init ?d = Raise ?e |- _ =>
        exists d; split; [now exists e|exact L2]
    end.
Qed.

(** The three accounts hold along every run. *)
Lemma reachable_ledger (images : list string) (s : state) :
  reachable_ images s -> ledger_ images s.
Proof.
  unfold reachable. remember (process_images_start images) as s0 eqn:Es0.
  induction 1 as [s0|s0 a ok s1 s2 _ IH Hstep]; subst.
  - apply ledger_start.
  - eapply ledger_step; [apply IH; reflexivity|eassumption].
Qed.

(** X8: in every state of every run, whatever fails, the archives handed
    to [docker load] so far, then those waiting in [image_queue], then
    those not yet submitted, are the batch: every image is loaded at most
    once, in submission order, and nothing else is ever loaded. *)
Theorem load_stage_follows_batch (images : list string) (s : state) :
  reachable_ images s ->
  load_attempts (trace s) ++ items (image_queue s) ++ remaining (driver s)
  = images.
Proof.
  intros H. destruct (reachable_ledger images s H) as (Hload & _).
  exact Hload.
Qed.


(** X10: the references that reached [docker push] so far, then those
    waiting in [push_queue], are the new references that [docker tag]
    applied, in tagging order: a failed push neither repeats nor blocks
    anything. *)
Theorem push_stage_follows_tags (images : list string) (s : state) :
  reachable_ images s ->
  pushes (trace s) ++ items (push_queue s) = tagged_ok (trace s).
Proof.
  intros H. destruct (reachable_ledger images s H) as (_ & _ & Hpush).
  exact Hpush.
Qed.

Lemma in_order_start (images : list string) :
  in_order_ images (process_images_start images).
Proof.
  exists [], []. cbn. repeat split; try constructor. apply subseq_refl.
Qed.

Lemma in_order_step (images : list string) (a : actor) (ok : bool)
    (s s' : state) :
  sourced_ images s -> in_order_ images s ->
  step_ a ok s = Some s' -> in_order_ images s'.
Proof.
  unfold in_order. intros (_ & _ & Hsrc) (pushed & waiting & Hsub & Hp & Hw) H.
  destruct s as [pc iq tq pq lw tw pw tr], a; open_move H;
    try subst pc; try subst iq; try subst tq; try subst pq;
    cbn [items remaining map fst app] in Hsub, Hw.
  (* the driver *)
  1-5: exists pushed, waiting; tidy_ledger;
       rewrite ?app_nil_r in Hsub; auto.
  - (* docker load succeeded *)
    exists pushed, waiting. tidy_ledger. auto.
  - (* docker load failed: the image is dropped *)
    exists pushed, waiting. tidy_ledger. repeat split; try assumption.
    eapply subseq_drop3. exact Hsub.
  - exists pushed, waiting. tidy_ledger. auto.
  - (* docker tag succeeded: the image moves behind those waiting *)
    destruct (Hsrc _ _ (in_eq _ _)) as [_ ->].
    match goal with
    | p : string, c : DockerContainer |- _ =>
        exists pushed, (waiting ++ [p]); tidy_ledger;
        repeat split; try assumption;
        apply Forall2_app; [assumption|];
        constructor; [|constructor]; now exists c
    end.
  - (* docker tag failed *)
    exists pushed, waiting. tidy_ledger. repeat split; try assumption.
    eapply subseq_drop2. exact Hsub.
  - (* the tag worker dies *)
    exists pushed, waiting. tidy_ledger. repeat split; try assumption.
    eapply subseq_drop2. exact Hsub.
  - exists pushed, waiting. tidy_ledger. auto.
  - (* docker push: the first waiting image has reached the push stage *)
    inversion Hw as [|w t waiting' pq' Hwt Hrest]; subst.
    exists (pushed ++ [w]), waiting'. tidy_ledger.
    repeat split; try assumption.
    apply Forall2_app; [assumption|]. now repeat constructor.
  - exists pushed, waiting. tidy_ledger. auto.
Qed.

Lemma reachable_in_order (images : list string) (s : state) :
  reachable_ images s -> in_order_ images s.
Proof.
  intros Hreach. unfold reachable in Hreach.
  remember (process_images_start images) as s0 eqn:Es0.
  induction Hreach as [s0|s0 a ok s1 s2 Hsteps IH Hstep]; subst.
  - apply in_order_start.
  - destruct (invariants_ images s1 Hsteps) as (_ & _ & Hso & _).
    eapply in_order_step; [exact Hso|apply IH; reflexivity|eassumption].
Qed.

(** X11: in every state of every run, whatever fails or dies, the
    references that reached the push stage are, one for one and in order,
    the new references of a subsequence of the batch: failures only leave
    images out, they never swap, repeat or invent one. *)
Theorem pushes_are_a_subsequence_of_the_batch (images : list string)
    (s : state) :
  reachable_ images s ->
  exists pushed,
    subseq pushed images
    /\ Forall2 retag_of_ pushed (pushes (trace s))
    /\ length (pushes (trace s)) <= length images.
Proof.
  intros Hreach.
  destruct (reachable_in_order images s Hreach)
    as (pushed & waiting & Hsub & Hp & _).
  exists pushed. apply subseq_prefix in Hsub.
  repeat split; try assumption.
  rewrite <- (Forall2_length Hp). now apply subseq_length.
Qed.

Lemma crash_explained_step (images : list string) (a : actor) (ok : bool)
    (s s' : state) :
  sourced_ images s -> loaded_before_tag s -> crash_explained_ images s ->
  step_ a ok s = Some s' ->
  loaded_before_tag s' /\ crash_explained_ images s'.
Proof.
  unfold loaded_before_tag, crash_explained.
  intros (_ & _ & Hsrc) Hlb Hce H.
  destruct s as [pc iq tq pq lw tw pw tr], a; open_move H;
    try subst pc; try subst iq; try subst tq; try subst pq;
    (split; [intros ? ? Hin | intros ? ? Hin]);
    repeat match goal with
      | Hin : In _ (_ ++ [_]) |- _ =>
          apply in_app_or in Hin; destruct Hin as [Hin|[Hin|[]]]
      end;
    try discriminate Hin.
  (* an item of the tag queue: it was there before, or was just loaded *)
  all: try solve [ try (apply in_or_app; left); eauto using in_cons
                 | injection Hin as <- <-; apply in_or_app; right; now left ].
  (* an exception recorded before this step *)
  all: try solve [ destruct (Hce _ _ Hin) as (-> & -> & Htw & q & Hq & Hl & Hc);
                   try discriminate Htw;
                   repeat split; try assumption;
                   exists q; repeat split; try assumption;
                   try (apply in_or_app; left); assumption ].
  (* the exception of this step *)
  injection Hin as <- <-.
  match goal with
  | E : DockerContainer_init ?d = Raise ?e |- _ =>
      destruct (init_raise_inv d e E) as [-> Hlen];
      rewrite length_split in Hlen
  end.
  match goal with
  | Hs : forall p d, In (Some (p, d)) (Some (?p0, ?d0) :: _) -> _ |- _ =>
      destruct (Hs p0 d0 (in_eq _ _)) as [Hp0 ->];
      pose proof (Hlb p0 _ (in_eq _ _)) as Hl0;
      repeat split; exists p0; repeat split; try assumption;
      [apply in_or_app; now left | lia]
  end.
Qed.

Lemma reachable_crash_explained (images : list string) (s : state) :
  reachable_ images s ->
  loaded_before_tag s /\ crash_explained_ images s.
Proof.
  intros Hreach. unfold reachable in Hreach.
  remember (process_images_start images) as s0 eqn:Es0.
  induction Hreach as [s0|s0 a ok s1 s2 Hsteps IH Hstep]; subst.
  - split; intros ? ? Hin; destruct Hin.
  - destruct (invariants_ images s1 Hsteps) as (_ & _ & Hso & _).
    destruct (IH eq_refl) as [Hlb Hce].
    eapply crash_explained_step; eassumption.
Qed.


Lemma no_crash_step (images : list string) (a : actor) (ok : bool)
    (s s' : state) :
  Forall (fun p => exists c, DockerContainer_init (extract_ p) = Ok c)
    images ->
  sourced_ images s ->
  (forall e, tag_worker s <> Crashed e) ->
  step_ a ok s = Some s' ->
  forall e, tag_worker s' <> Crashed e.
Proof.
  intros Hparse (_ & _ & Hsrc) Hno H. rewrite Forall_forall in Hparse.
  destruct s as [pc iq tq pq lw tw pw tr], a; open_move H;
    try subst tq; try exact Hno; try discriminate.
  destruct (Hsrc _ _ (in_eq _ _)) as [Hin ->].
  destruct (Hparse _ Hin) as [c Hc]. congruence.
Qed.

Lemma never_crashes (images : list string) (s : state) :
  Forall (fun p => exists c, DockerContainer_init (extract_ p) = Ok c)
    images ->
  reachable_ images s ->
  forall e, tag_worker s <> Crashed e.
Proof.
  intros Hparse Hreach. unfold reachable in Hreach.
  remember (process_images_start images) as s0 eqn:Es0.
  induction Hreach as [s0|s0 a ok s1 s2 Hsteps IH Hstep]; subst.
  - discriminate.
  - destruct (invariants_ images s1 Hsteps) as (_ & _ & Hso & _).
    eapply no_crash_step; try eassumption. now apply IH.
Qed.

(** Before the driver has returned, some thread can take its next step
    whatever [docker] answers, unless the tag worker has died. *)
Lemma progress_any_outcome (images : list string) (s : state) :
  shape s ->
  (forall e, tag_worker s <> Crashed e) ->
  driver s <> Returned ->
  exists a, forall ok, exists s', step_ a ok s = Some s'.
Proof.
  intros [Hi Ht Hp Hla Hpa Hld Htd Hpd Hj Hc] Hno Hnot.
  destruct s as [pc iq tq pq lw tw pw tr]. unfold joined in Hj.
  cbn [driver image_queue tag_queue push_queue load_worker tag_worker
       push_worker trace] in *.
  assert (Htw : tw = Running \/ tw = Finished).
  { destruct tw as [| |e]; auto. now elim (Hno e). }
  destruct pc as [[|image rest]| | | |]; try (now elim Hnot);
    cbn [putting negb andb] in *.
  - exists Driver. intros ok. eexists. reflexivity.
  - exists Driver. intros ok. eexists. reflexivity.
  - destruct Hla as [->| ->].
    + cbn [is_running] in Hi.
      destruct (pill_last_true_cons _ Hi) as ([p|] & q & ->);
        exists Load; intros [|]; eexists; reflexivity.
    + exists Driver. intros ok. eexists. reflexivity.
  - subst lw. destruct Htw as [->| ->].
    + cbn [is_finished negb andb] in Ht.
      destruct (pill_last_true_cons _ Ht) as ([[p d]|] & q & ->);
        exists Tag; intros ok; cbn; unfold tag_docker_image; cbn.
      * destruct (DockerContainer_init d); [destruct ok|]; eexists;
          reflexivity.
      * eexists; reflexivity.
    + exists Driver. intros ok. eexists. reflexivity.
  - destruct Hj as [-> Hterm].
    destruct Htw as [->| ->]; [discriminate|].
    destruct Hpa as [->| ->].
    + cbn [is_finished negb andb] in Hp.
      destruct (pill_last_true_cons _ Hp) as ([t|] & q & ->);
        exists Push; intros ok; eexists; reflexivity.
    + exists Driver. intros ok. eexists. reflexivity.
Qed.

Lemma completion_any_outcome (images : list string) (ok : bool) :
  Forall (fun p => exists c, DockerContainer_init (extract_ p) = Ok c)
    images ->
  forall (n : nat) (s : state),
    work_left s < n ->
    reachable_ images s ->
    exists schedule s',
      Forall (fun x => snd x = ok) schedule
      /\ run_ schedule s = Some s' /\ driver s' = Returned.
Proof.
  intros Hparse. induction n as [|n IH]; intros s Hn Hreach; [lia|].
  destruct (driver s) as [rest| | | |] eqn:Edrv.
  5: { exists [], s. repeat split; [constructor|assumption]. }
  all: destruct (invariants_ images s Hreach) as (Hsh & _).
  all: destruct (progress_any_outcome images s Hsh
                   (never_crashes images s Hparse Hreach))
         as (a & Hstep); [congruence|].
  all: destruct (Hstep ok) as (s1 & Hs1).
  all: pose proof (step_work_left _ _ _ a ok s s1 Hs1) as Hless.
  all: destruct (IH s1) as (schedule & s2 & Hall & Hrun & Hret); [lia| |].
  all: try (eapply reachable_steps; [exact Hreach|];
            eapply steps_next; [apply steps_refl|exact Hs1]).
  all: exists ((a, ok) :: schedule), s2; repeat split; try assumption;
         [now constructor|cbn [run]; now rewrite Hs1].
Qed.


Lemma run_consumes_work (schedule : list (actor * bool)) (s s' : state) :
  run_ schedule s = Some s' ->
  length schedule + work_left s' <= work_left s.
Proof.
  revert s. induction schedule as [|[a ok] schedule IH]; intros s H.
  - injection H as <-. cbn. lia.
  - cbn [run] in H. destruct (step_ a ok s) as [s1|] eqn:E; [|discriminate].
    pose proof (step_work_left _ _ _ a ok s s1 E).
    specialize (IH s1 H). cbn [length]. lia.
Qed.

(** X14: no run is longer than [4 * N + 7] steps for a batch of [N]
    archives, whatever the scheduling and the failures: no item is ever
    retried or put back on a queue. *)
Theorem run_length_bounded (images : list string)
    (schedule : list (actor * bool)) (s : state) :
  run_ schedule (process_images_start images) = Some s ->
  length schedule + work_left s <= 4 * length images + 7.
Proof.
  intros H. apply run_consumes_work in H.
  unfold work_left in H at 2. cbn in H. lia.
Qed.


Lemma silent_trace (tr : list event) :
  load_attempts tr = [] -> tag_attempts tr = [] -> pushes tr = [] ->
  (forall who e, ~ In (Uncaught who e) tr) ->
  tr = [].
Proof.
  destruct tr as [|[p ok|d t ok|t ok|who e] tr]; cbn; intros Hl Ht Hp Hu;
    try discriminate; [reflexivity|].
  elim (Hu who e). now left.
Qed.

(** X16: on the empty batch no [docker] command is ever launched and no
    thread dies, in any state of any run; and the run can always be
    brought to the return of [process_images]: the three workers only
    pass the poison pill along. *)
Theorem empty_batch_is_silent (s : state) :
  reachable_ [] s ->
  trace s = []
  /\ exists schedule s',
       run_ schedule s = Some s' /\ driver s' = Returned /\ trace s' = [].
Proof.
  assert (Hsilent : forall s1, reachable_ [] s1 -> trace s1 = []).
  { intros s1 Hreach.
    destruct (reachable_ledger [] s1 Hreach) as (L1 & L2 & L3).
    destruct (reachable_crash_explained [] s1 Hreach) as [_ Hce].
    assert (Hno : forall who e, ~ In (Uncaught who e) (trace s1)).
    { intros who e Hin.
      destruct (Hce who e Hin) as (_ & _ & _ & p & [] & _). }
    apply app_eq_nil in L1. destruct L1 as [Hl _].
    assert (Hok : loaded_ok (trace s1) = []).
    { clear - Hl. induction (trace s1) as [|[p ok| | |] tr IH]; cbn in *;
        try discriminate; auto. }
    rewrite Hok in L2. cbn [map] in L2.
    assert (Ht : tag_attempts (trace s1) = []).
    { destruct (tag_worker s1).
      - symmetry in L2. now apply app_eq_nil in L2.
      - symmetry in L2. now apply app_eq_nil in L2.
      - destruct L2 as (fatal & _ & L2). symmetry in L2.
        apply app_eq_nil in L2. destruct L2 as [_ L2]. discriminate. }
    assert (Hgood : tagged_ok (trace s1) = []).
    { clear - Ht. induction (trace s1) as [|[|d t ok| |] tr IH]; cbn in *;
        try discriminate; auto. }
    rewrite Hgood in L3. apply app_eq_nil in L3. destruct L3 as [Hp _].
    now apply silent_trace. }
  intros Hreach. split; [now apply Hsilent|].
  destruct (completion_any_outcome [] true (Forall_nil _)
              (S (work_left s)) s (Nat.lt_succ_diag_r _) Hreach)
    as (schedule & s' & _ & Hrun & Hret).
  exists schedule, s'. repeat split; try assumption.
  apply Hsilent. eapply reachable_steps; [exact Hreach|].
  eapply run_steps. exact Hrun.
Qed.

End RetagAndPushLedger.

(* ================================================================= *)
(** ** The ledger on sample batches *)

Lemma load_stage_follows_batch_witness :
  load_attempts (trace state_hanging) ++ items (image_queue state_hanging)
    ++ remaining (driver state_hanging)
  = ["a.tar.gz"; "b.tar.gz"].
Proof.
  apply (load_stage_follows_batch
           sample_image_details sample_new_tag sample_destination_path).
  apply (run_steps _ _ _ (schedule_until_tag ++ schedule_joins)).
  reflexivity.
Defined.


Lemma push_stage_follows_tags_witness :
  pushes (trace state_after_failures)
    ++ items (push_queue state_after_failures)
  = ["registry.example.com/team/nginx:v2"].
Proof.
  apply (push_stage_follows_tags
           sample_image_details sample_new_tag sample_destination_path
           ["mysql.tar.gz"; "nginx.tar.gz"] state_after_failures).
  apply (run_steps _ _ _ schedule_with_failures). reflexivity.
Defined.

Lemma pushes_are_a_subsequence_of_the_batch_witness :
  exists pushed,
    subseq pushed ["mysql.tar.gz"; "nginx.tar.gz"]
    /\ Forall2
         (retag_of sample_image_details sample_new_tag
            sample_destination_path)
         pushed ["registry.example.com/team/nginx:v2"]
    /\ 1 <= 2.
Proof.
  apply (pushes_are_a_subsequence_of_the_batch
           sample_image_details sample_new_tag sample_destination_path
           ["mysql.tar.gz"; "nginx.tar.gz"] state_after_failures).
  apply (run_steps _ _ _ schedule_with_failures). reflexivity.
Defined.



Lemma run_length_bounded_witness :
  length schedule_with_failures + work_left state_after_failures
  <= 4 * length ["mysql.tar.gz"; "nginx.tar.gz"] + 7.
Proof.
  apply (run_length_bounded
           sample_image_details sample_new_tag sample_destination_path).
  reflexivity.
Defined.


Lemma empty_batch_is_silent_witness :
  exists schedule s',
    run sample_image_details sample_new_tag sample_destination_path
      schedule (process_images_start []) = Some s'
    /\ driver s' = Returned /\ trace s' = [].
Proof.
  apply (empty_batch_is_silent
           sample_image_details sample_new_tag sample_destination_path
           (process_images_start [])).
  apply steps_refl.
Defined.
